(** * AABBTree: a shallow embedding of [aabbtree.py]

    The Python module defines two classes.  [AABB] is a d-dimensional
    axis-aligned box; [AABBTree] is a binary tree of boxes with an
    insertion heuristic and two overlap queries.

    An [AABB] instance is a mutable object: besides [limits] it carries the
    cursor [_i] that [__iter__] resets and [__next__] advances, and the
    object is its own iterator.  Boxes are stored in the tree by reference
    ([self.aabb = aabb]).  The embedding therefore keeps the boxes in a
    store addressed by references and runs the methods in a state and
    exception monad over that store.  Tree nodes are owned by exactly one
    parent ([copy.deepcopy] and the constructor are the only sources of
    nodes), so a tree is an ordinary inductive value whose nodes hold
    references to boxes.

    Coordinates are Python integers, modelled by [Z]. *)

From Stdlib Require Import ZArith Lia.
From stdpp Require Import base option list numbers.

Set Warnings "-register-all".
Set Default Proof Using "Type".

Open Scope Z_scope.

(** ** The store of box objects *)

(** An interval [(lo, hi)].  The constructor receives arbitrary sequences
    and asserts that each has two items; past that assertion the two items
    are kept as a pair. *)
Definition interval : Type := Z * Z.

(** The instance dictionary of an [AABB] object. *)
Record AABB : Type := mkAABB {
  limits : option (list interval);   (* [None] is Python's [None] *)
  _i : nat
}.

(** References are positions in the store. *)
Abbreviation ref := nat (only parsing).
Abbreviation heap := (list AABB) (only parsing).

(** Python exceptions that the modelled code can raise. *)
Inductive exn : Type :=
| AssertionError
| TypeError
| AttributeError
| IndexError.

(** The outcome of running a piece of code on a store: a result, an
    exception, or [Stuck] when the model itself has no answer (a reference
    outside the store, or a loop bound that was too small).  [Stuck] has no
    counterpart in Python; the theorems below show results and exceptions,
    never [Stuck]. *)
Inductive outcome (A : Type) : Type :=
| Ok (a : A) (h : heap)
| Raise (e : exn) (h : heap)
| Stuck.
Arguments Ok {A} a h.
Arguments Raise {A} e h.
Arguments Stuck {A}.

Definition M (A : Type) : Type := heap → outcome A.

Definition ret {A} (a : A) : M A := λ h, Ok a h.

Definition bind {A B} (m : M A) (k : A → M B) : M B :=
  λ h, match m h with
       | Ok a h' => k a h'
       | Raise e h' => Raise e h'
       | Stuck => Stuck
       end.

Definition raise {A} (e : exn) : M A := λ h, Raise e h.
Definition stuck {A} : M A := λ _, Stuck.

#[global] Instance M_ret : MRet M := @ret.
#[global] Instance M_bind : MBind M := λ A B k m, bind m k.

(** Reading and writing an object, and creating one. *)
Definition load (r : ref) : M AABB :=
  λ h, match h !! r with Some o => Ok o h | None => Stuck end.

Definition store (r : ref) (o : AABB) : M unit :=
  λ h, match h !! r with Some _ => Ok tt (<[r := o]> h) | None => Stuck end.

Definition alloc (o : AABB) : M ref :=
  λ h, Ok (length h) (h ++ [o]).

Module AABB.

(** [for lims in limits: assert len(lims) == 2; assert lims[0] <= lims[1]] *)
Fixpoint check_limits (limits : list (list Z)) : M (list interval) :=
  match limits with
  | [] => ret []
  | lims :: rest =>
      match lims with
      | [lo; hi] =>
          if lo <=? hi
          then (rest' ← check_limits rest; ret ((lo, hi) :: rest'))
          else raise AssertionError
      | _ => raise AssertionError
      end
  end.

(** [AABB(limits)]: the assertions, then the new object. *)
Definition __init__ (limits : option (list (list Z))) : M ref :=
  match limits with
  | None => alloc (mkAABB None 0)
  | Some ls => l ← check_limits ls; alloc (mkAABB (Some l) 0)
  end.

(** A stored interval handed back to the constructor. *)
Definition as_seq (lims : interval) : list Z := [lims.1; lims.2].

Definition __iter__ (self : ref) : M ref :=
  o ← load self;
  store self (mkAABB (limits o) 0);;
  ret self.

Definition __len__ (self : ref) : M nat :=
  o ← load self;
  match limits o with
  | None => raise TypeError
  | Some l => ret (length l)
  end.

Definition __getitem__ (self : ref) (key : nat) : M interval :=
  o ← load self;
  match limits o with
  | None => raise TypeError
  | Some l =>
      match l !! key with
      | Some lims => ret lims
      | None => raise IndexError
      end
  end.

(** [__next__]; the result [None] stands for [StopIteration], which the
    enclosing [for] or [zip] catches. *)
Definition __next__ (self : ref) : M (option interval) :=
  o ← load self;
  n ← __len__ self;
  if (_i o <? n)%nat then
    val ← __getitem__ self (_i o);
    store self (mkAABB (limits o) (S (_i o)));;
    ret (Some val)
  else ret None.

(** One step of [zip(it1, it2)]: the second iterator is advanced only
    after the first has produced an item. *)
Definition zip_next (it1 it2 : ref) : M (option (interval * interval)) :=
  x ← __next__ it1;
  match x with
  | None => ret None
  | Some lims1 =>
      y ← __next__ it2;
      match y with
      | None => ret None
      | Some lims2 => ret (Some (lims1, lims2))
      end
  end.

(** One more than the number of items of [self.limits] (none for [None]):
    an upper bound on the number of [__next__] calls that a loop over
    [self] makes, which bounds the recursion of the loops below. *)
Definition rounds (self : ref) : M nat :=
  o ← load self;
  ret (match limits o with Some l => S (length l) | None => 1%nat end).

(** [for i, lims1 in enumerate(self): ...] of [__eq__]. *)
Fixpoint eq_loop (fuel : nat) (i : nat) (it aabb : ref) : M bool :=
  match fuel with
  | O => stuck
  | S fuel =>
      x ← __next__ it;
      match x with
      | None => ret true
      | Some lims1 =>
          lims2 ← __getitem__ aabb i;
          if negb (lims1.1 =? lims2.1) || negb (lims1.2 =? lims2.2)
          then ret false
          else eq_loop fuel (S i) it aabb
      end
  end.

Definition __eq__ (self aabb : ref) : M bool :=
  o1 ← load self;
  o2 ← load aabb;
  match limits o1, limits o2 with
  | None, None => ret true
  | None, Some _ | Some _, None => ret false
  | Some _, Some _ =>
      n1 ← __len__ self;
      n2 ← __len__ aabb;
      if negb (n1 =? n2)%nat then ret false
      else
        fuel ← rounds self;
        it ← __iter__ self;
        eq_loop fuel 0 it aabb
  end.

Definition __ne__ (self aabb : ref) : M bool :=
  b ← __eq__ self aabb; ret (negb b).

(** [for lims1, lims2 in zip(aabb1, aabb2): merged_limits.append(...)] *)
Fixpoint merge_loop (fuel : nat) (it1 it2 : ref)
    (merged_limits : list interval) : M (list interval) :=
  match fuel with
  | O => stuck
  | S fuel =>
      x ← zip_next it1 it2;
      match x with
      | None => ret merged_limits
      | Some (lims1, lims2) =>
          let lower := Z.min lims1.1 lims2.1 in
          let upper := Z.max lims1.2 lims2.2 in
          merge_loop fuel it1 it2 (merged_limits ++ [(lower, upper)])
      end
  end.

Definition merge (aabb1 aabb2 : ref) : M ref :=
  o1 ← load aabb1;
  o2 ← load aabb2;
  match limits o1, limits o2 with
  | None, None => __init__ None
  | None, Some l2 => __init__ (Some (as_seq <$> l2))
  | Some l1, None => __init__ (Some (as_seq <$> l1))
  | Some _, Some _ =>
      fuel ← rounds aabb1;
      it1 ← __iter__ aabb1;
      it2 ← __iter__ aabb2;
      merged_limits ← merge_loop fuel it1 it2 [];
      __init__ (Some (as_seq <$> merged_limits))
  end.

(** [[ub - lb for lb, ub in self]] *)
Fixpoint side_lens_loop (fuel : nat) (it : ref) (acc : list Z) : M (list Z) :=
  match fuel with
  | O => stuck
  | S fuel =>
      x ← __next__ it;
      match x with
      | None => ret acc
      | Some (lb, ub) => side_lens_loop fuel it (acc ++ [ub - lb])
      end
  end.

(** The inner loop of [perimeter]: the product of the side lengths other
    than the [i]-th. *)
Definition p_edge (side_lens : list Z) (i : nat) : Z :=
  foldl (λ p j, if decide (j ≠ i) then p * default 0 (side_lens !! j) else p)
        1 (seq 0 (length side_lens)).

Definition perim_sum (side_lens : list Z) : Z :=
  foldl (λ perim i, perim + p_edge side_lens i) 0 (seq 0 (length side_lens)).

Definition perimeter (self : ref) : M Z :=
  n ← __len__ self;
  if (n =? 1)%nat then ret 0
  else
    fuel ← rounds self;
    it ← __iter__ self;
    side_lens ← side_lens_loop fuel it [];
    ret (2 * perim_sum side_lens).

(** [for lims1, lims2 in zip(self, aabb): ...] of [overlaps]. *)
Fixpoint overlaps_loop (fuel : nat) (it1 it2 : ref) : M bool :=
  match fuel with
  | O => stuck
  | S fuel =>
      x ← zip_next it1 it2;
      match x with
      | None => ret true
      | Some ((min1, max1), (min2, max2)) =>
          let overlaps := (max1 >=? min2) && (min1 <=? max2) in
          if negb overlaps then ret false
          else overlaps_loop fuel it1 it2
      end
  end.

Definition overlaps (self aabb : ref) : M bool :=
  fuel ← rounds self;
  it1 ← __iter__ self;
  it2 ← __iter__ aabb;
  overlaps_loop fuel it1 it2.

End AABB.

(** ** The tree *)

(** The memo dictionary of [copy.deepcopy], restricted to box objects: the
    copies made so far. *)
Abbreviation memo := (list (nat * nat)) (only parsing).

Fixpoint memo_get (m : memo) (r : ref) : option ref :=
  match m with
  | [] => None
  | (k, c) :: m => if decide (k = r) then Some c else memo_get m r
  end.

Module AABBTree.

(** A node of the tree: the instance dictionary of an [AABBTree] object.
    [aabb] is a reference to a box object, [value] the payload ([None] for
    Python's [None]), [left] and [right] the children or [None]. *)
Inductive t (V : Type) : Type := mkAABBTree {
  aabb : ref;
  value : option V;
  left : option (t V);
  right : option (t V)
}.
Arguments mkAABBTree {V} aabb value left right.
Arguments aabb {V} _.
Arguments value {V} _.
Arguments left {V} _.
Arguments right {V} _.

Section WithValue.
Context {V : Type}.

(** [AABBTree(aabb, value, left, right)] *)
Definition __init__ (aabb : ref) (value : option V)
    (left right : option (t V)) : t V :=
  mkAABBTree aabb value left right.

Definition is_leaf (self : t V) : bool :=
  match left self, right self with
  | None, None => true
  | _, _ => false
  end.

(** Reading [.aabb] or [.is_leaf] of a child attribute that is [None]
    raises [AttributeError]. *)
Definition child (c : option (t V)) : M (t V) :=
  match c with
  | Some t => ret t
  | None => raise AttributeError
  end.

(** [copy.deepcopy] of a box object: the memoised copy when there is one,
    otherwise a new object with the same instance dictionary. *)
Definition deepcopy_aabb (m : memo) (r : ref) : M (ref * memo) :=
  match memo_get m r with
  | Some c => ret (c, m)
  | None =>
      o ← load r;
      c ← alloc o;
      ret (c, (r, c) :: m)
  end.

(** [copy.deepcopy] of a node: its attributes in the order [aabb],
    [value], [left], [right].  Payloads are compared by value only, so
    the copy of a payload is the payload. *)
Fixpoint deepcopy_memo (m : memo) (self : t V)
    : M (t V * memo) :=
  am ← deepcopy_aabb m (aabb self);
  lm ← match left self with
       | None => ret (None, am.2)
       | Some l => r ← deepcopy_memo am.2 l; ret (Some r.1, r.2)
       end;
  rm ← match right self with
       | None => ret (None, lm.2)
       | Some l => r ← deepcopy_memo lm.2 l; ret (Some r.1, r.2)
       end;
  ret (mkAABBTree am.1 (value self) lm.1 rm.1, rm.2).

Definition deepcopy (self : t V) : M (t V) :=
  r ← deepcopy_memo [] self; ret r.1.

Fixpoint add (self : t V) (aabb : ref) (value : option V)
    : M (t V) :=
  empty ← AABB.__init__ None;
  uninitialized ← AABB.__eq__ (AABBTree.aabb self) empty;
  if (uninitialized : bool) then
    ret (mkAABBTree aabb value (left self) (right self))
  else if is_leaf self then
    l ← deepcopy self;
    let r := __init__ aabb value None None in
    merged ← AABB.merge (AABBTree.aabb self) aabb;
    ret (mkAABBTree merged None (Some l) (Some r))
  else
    tree_p ← AABB.perimeter (AABBTree.aabb self);
    tree_merge ← AABB.merge (AABBTree.aabb self) aabb;
    tree_merge_p ← AABB.perimeter tree_merge;
    let new_parent_cost := 2 * tree_merge_p in
    let min_pushdown_cost := 2 * (tree_merge_p - tree_p) in
    sl ← child (left self);
    left_merge ← AABB.merge (AABBTree.aabb sl) aabb;
    left_merge_p ← AABB.perimeter left_merge;
    let cost_left := left_merge_p + min_pushdown_cost in
    cost_left ← (if negb (is_leaf sl)
                 then p ← AABB.perimeter (AABBTree.aabb sl); ret (cost_left - p)
                 else ret cost_left);
    sr ← child (right self);
    right_merge ← AABB.merge (AABBTree.aabb sr) aabb;
    right_merge_p ← AABB.perimeter right_merge;
    let cost_right := right_merge_p + min_pushdown_cost in
    cost_right ← (if negb (is_leaf sr)
                  then p ← AABB.perimeter (AABBTree.aabb sr); ret (cost_right - p)
                  else ret cost_right);
    self' ← (if new_parent_cost <? Z.min cost_left cost_right then
               l ← deepcopy self;
               let r := __init__ aabb value None None in
               ret (mkAABBTree (AABBTree.aabb self) None (Some l) (Some r))
             else if cost_left <? cost_right then
               match left self with
               | Some l =>
                   l' ← add l aabb value;
                   ret (mkAABBTree (AABBTree.aabb self) (AABBTree.value self)
                                   (Some l') (right self))
               | None => raise AttributeError
               end
             else
               match right self with
               | Some r =>
                   r' ← add r aabb value;
                   ret (mkAABBTree (AABBTree.aabb self) (AABBTree.value self)
                                   (left self) (Some r'))
               | None => raise AttributeError
               end);
    sl ← child (left self');
    sr ← child (right self');
    merged ← AABB.merge (AABBTree.aabb sl) (AABBTree.aabb sr);
    ret (mkAABBTree merged (AABBTree.value self') (left self') (right self')).

Fixpoint does_overlap (self : t V) (aabb : ref) : M bool :=
  if is_leaf self then AABB.overlaps (AABBTree.aabb self) aabb
  else
    sl ← child (left self);
    left_aabb_over ← AABB.overlaps (AABBTree.aabb sl) aabb;
    sr ← child (right self);
    right_aabb_over ← AABB.overlaps (AABBTree.aabb sr) aabb;
    found_left ← (if (left_aabb_over : bool)
                  then match left self with
                       | Some l => does_overlap l aabb
                       | None => raise AttributeError
                       end
                  else ret false);
    if (found_left : bool) then ret true
    else
      found_right ← (if (right_aabb_over : bool)
                     then match right self with
                          | Some r => does_overlap r aabb
                          | None => raise AttributeError
                          end
                     else ret false);
      if (found_right : bool) then ret true else ret false.

Fixpoint overlap_values (self : t V) (aabb : ref) : M (list (option V)) :=
  let values := [] in
  if is_leaf self then
    over ← does_overlap self aabb;
    if (over : bool) then ret (values ++ [AABBTree.value self])
    else ret values
  else
    sl ← child (left self);
    left_over ← AABB.overlaps (AABBTree.aabb sl) aabb;
    values ← (if (left_over : bool)
              then match left self with
                   | Some l => vs ← overlap_values l aabb; ret (values ++ vs)
                   | None => raise AttributeError
                   end
              else ret values);
    sr ← child (right self);
    right_over ← AABB.overlaps (AABBTree.aabb sr) aabb;
    values ← (if (right_over : bool)
              then match right self with
                   | Some r => vs ← overlap_values r aabb; ret (values ++ vs)
                   | None => raise AttributeError
                   end
              else ret values);
    ret values.

(** [self == aabbtree].  The right operand is [None] or a tree: the two
    kinds of value that the recursive comparison of [left] and [right]
    meets.  [None == x] holds exactly when [x] is [None]. *)
Fixpoint __eq__ (self : t V) (other : option (t V)) : M bool :=
  match other with
  | None => ret false
  | Some aabbtree =>
      differ ← AABB.__ne__ (aabb self) (aabb aabbtree);
      if (differ : bool) then ret false
      else if negb (eqb (is_leaf self) (is_leaf aabbtree)) then ret false
      else
        same_left ← match left self with
                    | Some l => __eq__ l (left aabbtree)
                    | None => ret (match left aabbtree with
                                   | None => true
                                   | Some _ => false
                                   end)
                    end;
        if (same_left : bool) then
          match right self with
          | Some r => __eq__ r (right aabbtree)
          | None => ret (match right aabbtree with
                         | None => true
                         | Some _ => false
                         end)
          end
        else ret false
  end.

Definition __ne__ (self : t V) (other : option (t V)) : M bool :=
  b ← __eq__ self other; ret (negb b).

End WithValue.
End AABBTree.

(** The object created once for the default argument [aabb=AABB()] of
    [AABBTree.__init__], and the store that holds nothing else. *)
Definition default_aabb : ref := 0%nat.
Definition initial_heap : heap := [mkAABB None 0].

(** [AABBTree()] *)
Definition empty_tree {V} : AABBTree.t V :=
  AABBTree.__init__ default_aabb None None None.

(** ** What the methods compute, as functions of the stored limits

    The cursor [_i] is reset by [__iter__] before it is read, so the result
    of every method depends on the store only through the limits of the
    objects, and on whether two arguments are one and the same object. *)

Definition view (h : heap) : list (option (list interval)) := limits <$> h.

(** [r] is a box with limits [l] / the box without limits. *)
Definition box (h : heap) (r : ref) (l : list interval) : Prop :=
  view h !! r = Some (Some l).
Definition unset (h : heap) (r : ref) : Prop :=
  view h !! r = Some None.

(** Every stored interval went through the assertions of the constructor. *)
Definition ivalid (p : interval) : Prop := p.1 ≤ p.2.
Definition limits_ok (o : option (list interval)) : Prop :=
  match o with Some l => Forall ivalid l | None => True end.
Definition heap_ok (h : heap) : Prop := Forall limits_ok (view h).

(** [r] is a box whose cursor has [rest] left to yield. *)
Definition pending (h : heap) (r : ref) (rest : list interval) : Prop :=
  ∃ l i, h !! r = Some (mkAABB (Some l) i) ∧ drop i l = rest.

(** The items that [zip(a, a)] yields: both iterators are the object [a]
    itself and share its cursor, so consecutive items are paired. *)
Fixpoint pair_up {A} (l : list A) : list (A * A) :=
  match l with
  | a :: b :: rest => (a, b) :: pair_up rest
  | _ => []
  end.

(** The items that [zip(x, y)] yields for two box objects. *)
Definition zipped {A} (same : bool) (l1 l2 : list A) : list (A * A) :=
  if same then pair_up l1 else zip l1 l2.

Definition overlap1 (p : interval * interval) : bool :=
  (p.1.2 >=? p.2.1) && (p.1.1 <=? p.2.2).
Definition merge1 (p : interval * interval) : interval :=
  (Z.min p.1.1 p.2.1, Z.max p.1.2 p.2.2).
Definition side_len (p : interval) : Z := p.2 - p.1.

Definition overlaps_of (same : bool) (l1 l2 : list interval) : bool :=
  forallb overlap1 (zipped same l1 l2).
Definition merge_of (same : bool) (l1 l2 : list interval) : list interval :=
  merge1 <$> zipped same l1 l2.
Definition merged_of (same : bool) (o1 o2 : option (list interval))
    : option (list interval) :=
  match o1, o2 with
  | None, None => None
  | None, Some l2 => Some l2
  | Some l1, None => Some l1
  | Some l1, Some l2 => Some (merge_of same l1 l2)
  end.
Definition perimeter_of (l : list interval) : Z :=
  if (length l =? 1)%nat then 0 else 2 * AABB.perim_sum (side_len <$> l).

(** ** Trees seen through the stored limits *)

Section TreeViews.
Context {V : Type}.
Implicit Types (L : list (option (list interval))) (t : AABBTree.t V).

(** The box references of a tree, in pre-order. *)
Fixpoint refs t : list ref :=
  AABBTree.aabb t
    :: match AABBTree.left t with Some l => refs l | None => [] end
    ++ match AABBTree.right t with Some r => refs r | None => [] end.

(** A tree as [add] builds it once it holds an item: every node has a box
    with limits, and two children or none. *)
Fixpoint proper L t : Prop :=
  (∃ l, L !! AABBTree.aabb t = Some (Some l)) ∧
  match AABBTree.left t, AABBTree.right t with
  | None, None => True
  | Some l, Some r => proper L l ∧ proper L r
  | _, _ => False
  end.

(** The tree that [AABBTree()] builds: one node, its box without limits. *)
Definition uninitialized L t : Prop :=
  L !! AABBTree.aabb t = Some None ∧
  AABBTree.left t = None ∧ AABBTree.right t = None.

(** What [x.overlaps(q)] returns for stored boxes. *)
Definition overlaps_in L (x q : ref) : bool :=
  match L !! x, L !! q with
  | Some (Some l1), Some (Some l2) => overlaps_of (bool_decide (x = q)) l1 l2
  | _, _ => false
  end.

(** What the two queries return on a proper tree. *)
Fixpoint does_overlap_of L t (q : ref) : bool :=
  match AABBTree.left t, AABBTree.right t with
  | Some l, Some r =>
      (overlaps_in L (AABBTree.aabb l) q && does_overlap_of L l q)
      || (overlaps_in L (AABBTree.aabb r) q && does_overlap_of L r q)
  | _, _ => overlaps_in L (AABBTree.aabb t) q
  end.

Fixpoint overlap_values_of L t (q : ref) : list (option V) :=
  match AABBTree.left t, AABBTree.right t with
  | Some l, Some r =>
      (if overlaps_in L (AABBTree.aabb l) q then overlap_values_of L l q else [])
      ++ (if overlaps_in L (AABBTree.aabb r) q then overlap_values_of L r q else [])
  | _, _ =>
      if overlaps_in L (AABBTree.aabb t) q then [AABBTree.value t] else []
  end.

(** [tree.add(b1, v1); tree.add(b2, v2); ...] *)
Fixpoint add_all t (items : list (ref * option V)) : M (AABBTree.t V) :=
  match items with
  | [] => mret t
  | (b, v) :: items => t' ← AABBTree.add t b v; add_all t' items
  end.
End TreeViews.

(** ** Trees by value

    A tree with the limits of each box written into the node: what a tree
    of the program denotes when the identity of its box objects is
    forgotten. *)

Inductive vtree (V : Type) : Type := VNode {
  vbox : option (list interval);
  vvalue : option V;
  vleft : option (vtree V);
  vright : option (vtree V)
}.
Arguments VNode {V} vbox vvalue vleft vright.
Arguments vbox {V} _.
Arguments vvalue {V} _.
Arguments vleft {V} _.
Arguments vright {V} _.

Definition lims_at (L : list (option (list interval))) (r : ref)
    : option (list interval) :=
  mjoin (L !! r).

Section TreeValues.
Context {V : Type}.

Fixpoint abs (L : list (option (list interval))) (t : AABBTree.t V)
    : vtree V :=
  VNode (lims_at L (AABBTree.aabb t)) (AABBTree.value t)
        (match AABBTree.left t with Some l => Some (abs L l) | None => None end)
        (match AABBTree.right t with Some r => Some (abs L r) | None => None end).

(** The copies recorded in the memo are objects created since the store
    had [n0] objects, and have the limits of their originals. *)
Definition memo_ok (n0 : nat) (h : heap) (m : memo) : Prop :=
  ∀ k c, memo_get m k = Some c →
         (n0 ≤ c < length h)%nat ∧ view h !! c = view h !! k.
End TreeValues.

Section AddByValue.
Context {V : Type}.

Definition vperim (o : option (list interval)) : Z :=
  perimeter_of (default [] o).

Definition v_is_leaf (t : vtree V) : bool :=
  match vleft t, vright t with
  | None, None => true
  | _, _ => false
  end.

Definition v_leaf (b : list interval) (v : option V) : vtree V :=
  VNode (Some b) v None None.

(** The cost of descending into the child [c] with the box [b]. *)
Definition v_cost (pushdown : Z) (b : list interval) (c : vtree V) : Z :=
  let merge_p := vperim (merged_of false (vbox c) (Some b)) in
  if v_is_leaf c then merge_p + pushdown
  else merge_p + pushdown - vperim (vbox c).

(** [add] on trees by value: what [AABBTree.add] does when the box it
    receives is not an object of the tree. *)
Fixpoint v_add (t : vtree V) (b : list interval) (v : option V) : vtree V :=
  match vbox t with
  | None => VNode (Some b) v (vleft t) (vright t)
  | Some lt =>
      match vleft t, vright t with
      | None, None =>
          VNode (Some (merge_of false lt b)) None (Some t) (Some (v_leaf b v))
      | Some l, Some r =>
          let tree_p := perimeter_of lt in
          let tree_merge_p := perimeter_of (merge_of false lt b) in
          let new_parent_cost := 2 * tree_merge_p in
          let min_pushdown_cost := 2 * (tree_merge_p - tree_p) in
          let cost_left := v_cost min_pushdown_cost b l in
          let cost_right := v_cost min_pushdown_cost b r in
          if new_parent_cost <? Z.min cost_left cost_right then
            VNode (Some (merge_of false lt b)) None
                  (Some t) (Some (v_leaf b v))
          else if cost_left <? cost_right then
            let l' := v_add l b v in
            VNode (merged_of false (vbox l') (vbox r)) (vvalue t)
                  (Some l') (Some r)
          else
            let r' := v_add r b v in
            VNode (merged_of false (vbox l) (vbox r')) (vvalue t)
                  (Some l) (Some r')
      | _, _ => t
      end
  end.

Fixpoint v_proper (t : vtree V) : Prop :=
  is_Some (vbox t) ∧
  match vleft t, vright t with
  | None, None => True
  | Some l, Some r => v_proper l ∧ v_proper r
  | _, _ => False
  end.
End AddByValue.

Section InsertionCosts.
Context {V : Type}.

(** [AABB.merge(x, b).perimeter] for the stored boxes [x] and [b] with
    limits [lx] and [lb]. *)
Definition merge_perimeter (x b : ref) (lx lb : list interval) : Z :=
  perimeter_of (merge_of (bool_decide (x = b)) lx lb).

(** The cost of descending into the child [c], whose box has limits [lc]:
    the perimeter of the merged box plus the pushdown cost, less the
    perimeter of the child's box when the child is not a leaf. *)
Definition child_cost (pushdown : Z) (c : AABBTree.t V)
    (lc : list interval) (b : ref) (lb : list interval) : Z :=
  let merge_p := merge_perimeter (AABBTree.aabb c) b lc lb in
  if AABBTree.is_leaf c then merge_p + pushdown
  else merge_p + pushdown - perimeter_of lc.

(** The three things [add] can do at an internal node. *)
Definition split_here (self : AABBTree.t V) (b : ref) (v : option V)
    : M (AABBTree.t V) :=
  l ← AABBTree.deepcopy self;
  let r := AABBTree.__init__ b v None None in
  merged ← AABB.merge (AABBTree.aabb l) (AABBTree.aabb r);
  mret (AABBTree.mkAABBTree merged None (Some l) (Some r)).

Definition descend_left (self sl sr : AABBTree.t V) (b : ref) (v : option V)
    : M (AABBTree.t V) :=
  l' ← AABBTree.add sl b v;
  merged ← AABB.merge (AABBTree.aabb l') (AABBTree.aabb sr);
  mret (AABBTree.mkAABBTree merged (AABBTree.value self) (Some l') (Some sr)).

Definition descend_right (self sl sr : AABBTree.t V) (b : ref) (v : option V)
    : M (AABBTree.t V) :=
  r' ← AABBTree.add sr b v;
  merged ← AABB.merge (AABBTree.aabb sl) (AABBTree.aabb r');
  mret (AABBTree.mkAABBTree merged (AABBTree.value self) (Some sl) (Some r')).
End InsertionCosts.

(** ** Vocabulary of the statements *)

(** A supplied interval that passes the assertions of the constructor: it
    has exactly two bounds and the lower one does not exceed the upper. *)
Definition two_ordered_bounds (lims : list Z) : bool :=
  match lims with
  | [lo; hi] => lo <=? hi
  | _ => false
  end.

(** The pair kept for an accepted interval. *)
Definition as_interval (lims : list Z) : interval :=
  (default 0 (lims !! 0%nat), default 0 (lims !! 1%nat)).

(** The closed-interval test in every dimension: [a.hi >= b.lo] and
    [a.lo <= b.hi]. *)
Definition intersect_everywhere (a b : list interval) : Prop :=
  ∀ (i : nat) (lo_a hi_a lo_b hi_b : Z),
    a !! i = Some (lo_a, hi_a) → b !! i = Some (lo_b, hi_b) →
    (hi_a >= lo_b)%Z ∧ (lo_a <= hi_b)%Z.

(** ** Concrete stores and trees for the examples *)

(** A store with the default box of [AABBTree()] and three boxes created by
    the caller: the empty box [AABB()], [AABB([(0, 1), (2, 3)])] and
    [AABB([(2, 4), (0, 5)])]. *)
Definition example_heap : heap :=
  initial_heap ++ [mkAABB None 0;
                   mkAABB (Some [(0, 1); (2, 3)]) 0;
                   mkAABB (Some [(2, 4); (0, 5)]) 0].
Definition example_empty : ref := 1%nat.
Definition example_b : ref := 2%nat.
Definition example_c : ref := 3%nat.

Section TreeShapes.
Context {V : Type}.

(** Two trees agree on boxes and shape: corresponding nodes have boxes
    with the same limits (or both without limits), and corresponding
    children are both present or both absent.  Values are not looked
    at. *)
Fixpoint same_boxes (L : list (option (list interval)))
    (t1 t2 : AABBTree.t V) : Prop :=
  (∃ o, L !! AABBTree.aabb t1 = Some o ∧ L !! AABBTree.aabb t2 = Some o) ∧
  match AABBTree.left t1, AABBTree.left t2 with
  | Some l1, Some l2 => same_boxes L l1 l2
  | None, None => True
  | _, _ => False
  end ∧
  match AABBTree.right t1, AABBTree.right t2 with
  | Some r1, Some r2 => same_boxes L r1 r2
  | None, None => True
  | _, _ => False
  end.
End TreeShapes.

(** Two leaves with the same box and different values. *)
Definition example_leaf_x : AABBTree.t nat :=
  AABBTree.__init__ example_b (Some 1%nat) None None.
Definition example_leaf_y : AABBTree.t nat :=
  AABBTree.__init__ example_b (Some 2%nat) None None.

(** A store in which a tree of two leaves has been built by hand: the
    boxes [[(0, 1), (0, 1)]] and [[(5, 6), (5, 6)]], their merged box at the
    root, and a fourth box [[(0, 1), (1, 2)]] that is not in the tree. *)
Definition example_heap2 : heap :=
  initial_heap ++ [mkAABB (Some [(0, 1); (0, 1)]) 0;
                   mkAABB (Some [(5, 6); (5, 6)]) 0;
                   mkAABB (Some [(0, 6); (0, 6)]) 0;
                   mkAABB (Some [(0, 1); (1, 2)]) 0].
Definition example_left : AABBTree.t nat :=
  AABBTree.__init__ 1%nat (Some 1%nat) None None.
Definition example_right : AABBTree.t nat :=
  AABBTree.__init__ 2%nat (Some 2%nat) None None.
Definition example_node : AABBTree.t nat :=
  AABBTree.__init__ 3%nat None (Some example_left) (Some example_right).
Definition example_d : ref := 4%nat.

Section ValueLevel.
Context {V : Type}.







(** The values of the items whose box overlaps [q]. *)
Definition overlapping (items : list (list interval * option V))
    (q : list interval) : list (option V) :=
  snd <$> filter (λ it, overlaps_of false it.1 q = true) items.
End ValueLevel.

Section Copies.
Context {V : Type}.

(** Distinct originals have distinct copies. *)
Definition memo_inj (m : memo) : Prop :=
  ∀ k1 k2 c, memo_get m k1 = Some c → memo_get m k2 = Some c → k1 = k2.

(** The memo [m'] keeps every entry of [m]. *)
Definition memo_ext (m m' : memo) : Prop :=
  ∀ k c, memo_get m k = Some c → memo_get m' k = Some c.

(** [t'] has the shape of [t], and the box of each node of [t'] is the
    copy that the memo records for the box of the corresponding node. *)
Fixpoint copied (m : memo) (t t' : AABBTree.t V) : Prop :=
  memo_get m (AABBTree.aabb t) = Some (AABBTree.aabb t') ∧
  match AABBTree.left t, AABBTree.left t' with
  | Some l, Some l' => copied m l l'
  | None, None => True
  | _, _ => False
  end ∧
  match AABBTree.right t, AABBTree.right t' with
  | Some r, Some r' => copied m r r'
  | None, None => True
  | _, _ => False
  end.

(** The two children of a node never hold the same box object. *)
Fixpoint siblings_differ (t : AABBTree.t V) : Prop :=
  match AABBTree.left t, AABBTree.right t with
  | Some l, Some r =>
      AABBTree.aabb l ≠ AABBTree.aabb r ∧
      siblings_differ l ∧ siblings_differ r
  | _, _ => True
  end.

(** The check of the tightness invariant, run on the program's own
    operations: [n.aabb == AABB.merge(n.left.aabb, n.right.aabb)] at the
    node and, recursively, in both subtrees. *)
Fixpoint tight (t : AABBTree.t V) : M bool :=
  match AABBTree.left t, AABBTree.right t with
  | Some l, Some r =>
      merged ← AABB.merge (AABBTree.aabb l) (AABBTree.aabb r);
      same ← AABB.__eq__ (AABBTree.aabb t) merged;
      if (same : bool) then
        tight_left ← tight l;
        if (tight_left : bool) then tight r else mret false
      else mret false
  | _, _ => mret true
  end.
End Copies.

(** ** Vocabulary of the further properties *)

(** The sum, over the dimensions, of the product of the side lengths of
    the other dimensions: the sum in the docstring of [perimeter]. *)
Definition product (sides : list Z) : Z := foldr Z.mul 1 sides.
Definition sum_of_products (sides : list Z) : Z :=
  foldr Z.add 0 ((λ i, product (delete i sides)) <$> seq 0 (length sides)).

(** The inner loop of [perimeter] from index [k] on, over what is left of
    the side lengths. *)
Fixpoint product_skipping (i k : nat) (p : Z) (rest : list Z) : Z :=
  match rest with
  | [] => p
  | x :: rest =>
      product_skipping i (S k) (if decide (k ≠ i) then p * x else p) rest
  end.

Section LeafValues.
Context {V : Type}.

(** The values at the leaves of a tree, left to right. *)
Fixpoint leaf_values (t : AABBTree.t V) : list (option V) :=
  match AABBTree.left t, AABBTree.right t with
  | Some l, Some r => leaf_values l ++ leaf_values r
  | _, _ => [AABBTree.value t]
  end.

(** No internal node carries a value. *)
Fixpoint inner_values_none (t : AABBTree.t V) : Prop :=
  match AABBTree.left t, AABBTree.right t with
  | Some l, Some r =>
      AABBTree.value t = None ∧ inner_values_none l ∧ inner_values_none r
  | _, _ => True
  end.
End LeafValues.


(** [list(b)]: [iter(b)], then [next] until [StopIteration], the items
    gathered in order. *)
Fixpoint collect_loop (fuel : nat) (it : ref) (items : list interval)
    : M (list interval) :=
  match fuel with
  | O => stuck
  | S fuel =>
      x ← AABB.__next__ it;
      match x with
      | None => ret items
      | Some lims => collect_loop fuel it (items ++ [lims])
      end
  end.

Definition list_of_box (b : ref) : M (list interval) :=
  fuel ← AABB.rounds b;
  it ← AABB.__iter__ b;
  collect_loop fuel it [].

(** * Proofs *)

(** ** Running monadic code *)

Lemma bind_Ok {A B} (m : M A) (k : A → M B) h a h' :
  m h = Ok a h' → (m ≫= k) h = k a h'.
Proof. intros E. unfold mbind, M_bind, bind. by rewrite E. Qed.

Lemma bind_Raise {A B} (m : M A) (k : A → M B) h e h' :
  m h = Raise e h' → (m ≫= k) h = Raise e h'.
Proof. intros E. unfold mbind, M_bind, bind. by rewrite E. Qed.

Lemma bind_ret {A B} (a : A) (k : A → M B) h : (ret a ≫= k) h = k a h.
Proof. done. Qed.

Lemma bind_assoc {A B C} (m : M A) (f : A → M B) (g : B → M C) h :
  ((m ≫= f) ≫= g) h = (m ≫= λ x, f x ≫= g) h.
Proof. unfold mbind, M_bind, bind. by destruct (m h). Qed.

(** Run the first action of a sequence with a known result. *)
Ltac mstep H :=
  rewrite ?bind_assoc, ?bind_ret; rewrite (bind_Ok _ _ _ _ _ H).

Lemma ret_Ok {A} (a : A) h : (mret a : M A) h = Ok a h.
Proof. done. Qed.

Lemma load_Ok h r o : h !! r = Some o → load r h = Ok o h.
Proof. intros E. unfold load. by rewrite E. Qed.

Lemma store_Ok h r o o' : h !! r = Some o → store r o' h = Ok tt (<[r := o']> h).
Proof. intros E. unfold store. by rewrite E. Qed.

Lemma view_lookup h r : view h !! r = limits <$> h !! r.
Proof. unfold view. by rewrite list_lookup_fmap. Qed.

Lemma view_insert h r o o' :
  h !! r = Some o → limits o' = limits o → view (<[r := o']> h) = view h.
Proof.
  intros E El. unfold view. rewrite list_fmap_insert, El.
  apply list_insert_id. by rewrite list_lookup_fmap, E.
Qed.

Lemma view_app h o : view (h ++ [o]) = view h ++ [limits o].
Proof. unfold view. by rewrite fmap_app. Qed.

Lemma view_length h : length (view h) = length h.
Proof. unfold view. by rewrite length_fmap. Qed.

Lemma box_lookup h r l :
  box h r l → ∃ i, h !! r = Some (mkAABB (Some l) i).
Proof.
  unfold box. rewrite view_lookup. destruct (h !! r) as [[lo i]|]; simpl; [|done].
  intros [= ->]. eauto.
Qed.

Lemma unset_lookup h r :
  unset h r → ∃ i, h !! r = Some (mkAABB None i).
Proof.
  unfold unset. rewrite view_lookup. destruct (h !! r) as [[lo i]|]; simpl; [|done].
  intros [= ->]. eauto.
Qed.

(** ** The iterator protocol *)

Lemma iter_spec h r l :
  box h r l →
  ∃ h', AABB.__iter__ r h = Ok r h' ∧ view h' = view h ∧ pending h' r l ∧
        ∀ r', r' ≠ r → h' !! r' = h !! r'.
Proof.
  intros [i E]%box_lookup. exists (<[r := mkAABB (Some l) 0]> h).
  unfold AABB.__iter__.
  rewrite (bind_Ok _ _ _ _ _ (load_Ok _ _ _ E)). simpl.
  rewrite (bind_Ok _ _ _ _ _ (store_Ok _ _ _ _ E)).
  split_and!; [done|by eapply view_insert| |].
  - exists l, 0%nat. split; [|done].
    apply list_lookup_insert_eq. by eapply lookup_lt_Some.
  - intros r' Hne. by apply list_lookup_insert_ne.
Qed.

Lemma len_Ok h r l i :
  h !! r = Some (mkAABB (Some l) i) → AABB.__len__ r h = Ok (length l) h.
Proof.
  intros E. unfold AABB.__len__.
  by rewrite (bind_Ok _ _ _ _ _ (load_Ok _ _ _ E)).
Qed.

Lemma len_Raise h r i :
  h !! r = Some (mkAABB None i) → AABB.__len__ r h = Raise TypeError h.
Proof.
  intros E. unfold AABB.__len__.
  by rewrite (bind_Ok _ _ _ _ _ (load_Ok _ _ _ E)).
Qed.

Lemma getitem_Ok h r l i k a :
  h !! r = Some (mkAABB (Some l) i) → l !! k = Some a →
  AABB.__getitem__ r k h = Ok a h.
Proof.
  intros E Ea. unfold AABB.__getitem__.
  rewrite (bind_Ok _ _ _ _ _ (load_Ok _ _ _ E)). simpl. by rewrite Ea.
Qed.

Lemma next_nil h r :
  pending h r [] → AABB.__next__ r h = Ok None h.
Proof.
  intros (l & i & E & Hd). unfold AABB.__next__.
  rewrite (bind_Ok _ _ _ _ _ (load_Ok _ _ _ E)).
  rewrite (bind_Ok _ _ _ _ _ (len_Ok _ _ _ _ E)). simpl.
  apply drop_nil_inv in Hd.
  destruct (Nat.ltb_spec i (length l)); [lia|done].
Qed.

Lemma next_cons h r a rest :
  pending h r (a :: rest) →
  ∃ h', AABB.__next__ r h = Ok (Some a) h' ∧ view h' = view h ∧
        pending h' r rest ∧ ∀ r', r' ≠ r → h' !! r' = h !! r'.
Proof.
  intros (l & i & E & Hd). unfold AABB.__next__.
  rewrite (bind_Ok _ _ _ _ _ (load_Ok _ _ _ E)).
  rewrite (bind_Ok _ _ _ _ _ (len_Ok _ _ _ _ E)). simpl.
  assert (l !! i = Some a) as Ha.
  { rewrite <-(Nat.add_0_r i), <-lookup_drop, Hd. done. }
  assert (i < length l)%nat as Hi by (by eapply lookup_lt_Some).
  destruct (Nat.ltb_spec i (length l)); [|lia].
  rewrite (bind_Ok _ _ _ _ _ (getitem_Ok _ _ _ _ _ _ E Ha)).
  rewrite (bind_Ok _ _ _ _ _ (store_Ok _ _ _ _ E)).
  eexists. split_and!; [done|by eapply view_insert| |].
  - exists l, (S i). split.
    + apply list_lookup_insert_eq. by eapply lookup_lt_Some.
    + erewrite drop_S in Hd by done. by injection Hd.
  - intros r' Hne. by apply list_lookup_insert_ne.
Qed.

Lemma pending_other h h' r r' rest :
  (∀ r0, r0 ≠ r' → h' !! r0 = h !! r0) → r ≠ r' →
  pending h r rest → pending h' r rest.
Proof.
  intros Hfr Hne (l & i & E & Hd). exists l, i. by rewrite Hfr.
Qed.

Lemma pending_inj h r x1 x2 : pending h r x1 → pending h r x2 → x1 = x2.
Proof.
  intros (l & i & E & Hd) (l' & i' & E' & Hd'). rewrite E in E'.
  injection E' as <- <-. congruence.
Qed.

(** One round of [zip]: the next pair of the list [zipped] when there is
    one, exhaustion otherwise. *)
Lemma zip_next_spec h r1 r2 x1 x2 :
  pending h r1 x1 → pending h r2 x2 →
  ∃ h', view h' = view h ∧
    match zipped (bool_decide (r1 = r2)) x1 x2 with
    | [] => AABB.zip_next r1 r2 h = Ok None h'
    | p :: ps =>
        AABB.zip_next r1 r2 h = Ok (Some p) h' ∧
        ∃ x1' x2', pending h' r1 x1' ∧ pending h' r2 x2' ∧
                   zipped (bool_decide (r1 = r2)) x1' x2' = ps ∧
                   (length x1' < length x1)%nat
    end.
Proof.
  intros P1 P2. unfold AABB.zip_next, zipped. case_bool_decide as Hr.
  - subst r2. assert (x2 = x1) as -> by eauto using pending_inj.
    destruct x1 as [|a [|b x]]; simpl.
    + exists h. by rewrite (bind_Ok _ _ _ _ _ (next_nil _ _ P1)).
    + destruct (next_cons _ _ _ _ P1) as (h1 & E1 & Hv1 & P1' & _).
      exists h1. rewrite (bind_Ok _ _ _ _ _ E1).
      by rewrite (bind_Ok _ _ _ _ _ (next_nil _ _ P1')).
    + destruct (next_cons _ _ _ _ P1) as (h1 & E1 & Hv1 & P1' & _).
      destruct (next_cons _ _ _ _ P1') as (h2 & E2 & Hv2 & P2' & _).
      exists h2. rewrite (bind_Ok _ _ _ _ _ E1), (bind_Ok _ _ _ _ _ E2).
      split; [congruence|]. split; [done|]. exists x, x. simpl. eauto with lia.
  - destruct x1 as [|a x1]; simpl.
    + exists h. by rewrite (bind_Ok _ _ _ _ _ (next_nil _ _ P1)).
    + destruct (next_cons _ _ _ _ P1) as (h1 & E1 & Hv1 & P1' & Hfr1).
      assert (pending h1 r2 x2) as P2' by eauto using pending_other.
      rewrite (bind_Ok _ _ _ _ _ E1). destruct x2 as [|b x2]; simpl.
      * exists h1. by rewrite (bind_Ok _ _ _ _ _ (next_nil _ _ P2')).
      * destruct (next_cons _ _ _ _ P2') as (h2 & E2 & Hv2 & P2'' & Hfr2).
        exists h2. rewrite (bind_Ok _ _ _ _ _ E2).
        split; [congruence|]. split; [done|]. exists x1, x2.
        split_and!; [|done|done|simpl; lia].
        eapply pending_other; [exact Hfr2|done|done].
Qed.

Lemma overlaps_loop_spec fuel h r1 r2 x1 x2 :
  pending h r1 x1 → pending h r2 x2 → (length x1 < fuel)%nat →
  ∃ h', AABB.overlaps_loop fuel r1 r2 h
          = Ok (forallb overlap1 (zipped (bool_decide (r1 = r2)) x1 x2)) h'
        ∧ view h' = view h.
Proof.
  revert h x1 x2. induction fuel as [|fuel IH]; intros h x1 x2 P1 P2 Hf; [lia|].
  destruct (zip_next_spec _ _ _ _ _ P1 P2) as (h1 & Hv1 & Hz). simpl.
  destruct (zipped _ x1 x2) as [|[[min1 max1] [min2 max2]] ps].
  - exists h1. by rewrite (bind_Ok _ _ _ _ _ Hz).
  - destruct Hz as (Hz & x1' & x2' & P1' & P2' & <- & Hlen).
    rewrite (bind_Ok _ _ _ _ _ Hz). simpl. unfold overlap1 at 1. simpl.
    destruct ((max1 >=? min2) && (min1 <=? max2)); simpl.
    + destruct (IH h1 x1' x2' P1' P2') as (h2 & -> & Hv2); [lia|].
      exists h2. split; [done|congruence].
    + by exists h1.
Qed.

Lemma merge_loop_spec fuel h r1 r2 x1 x2 acc :
  pending h r1 x1 → pending h r2 x2 → (length x1 < fuel)%nat →
  ∃ h', AABB.merge_loop fuel r1 r2 acc h
          = Ok (acc ++ (merge1 <$> zipped (bool_decide (r1 = r2)) x1 x2)) h'
        ∧ view h' = view h.
Proof.
  revert h x1 x2 acc.
  induction fuel as [|fuel IH]; intros h x1 x2 acc P1 P2 Hf; [lia|].
  destruct (zip_next_spec _ _ _ _ _ P1 P2) as (h1 & Hv1 & Hz). simpl.
  destruct (zipped _ x1 x2) as [|[lims1 lims2] ps].
  - exists h1. rewrite (bind_Ok _ _ _ _ _ Hz). simpl. by rewrite app_nil_r.
  - destruct Hz as (Hz & x1' & x2' & P1' & P2' & <- & Hlen).
    rewrite (bind_Ok _ _ _ _ _ Hz). simpl.
    destruct (IH h1 x1' x2' (acc ++ [merge1 (lims1, lims2)]) P1' P2')
      as (h2 & E & Hv2); [lia|].
    exists h2. split; [|congruence]. rewrite <-app_assoc in E. exact E.
Qed.

Lemma side_lens_loop_spec fuel h r x acc :
  pending h r x → (length x < fuel)%nat →
  ∃ h', AABB.side_lens_loop fuel r acc h = Ok (acc ++ (side_len <$> x)) h'
        ∧ view h' = view h.
Proof.
  revert h x acc. induction fuel as [|fuel IH]; intros h x acc P Hf; [lia|].
  simpl. destruct x as [|[lb ub] x].
  - exists h. rewrite (bind_Ok _ _ _ _ _ (next_nil _ _ P)). simpl.
    by rewrite app_nil_r.
  - destruct (next_cons _ _ _ _ P) as (h1 & E1 & Hv1 & P' & _).
    rewrite (bind_Ok _ _ _ _ _ E1). simpl in Hf |- *.
    destruct (IH h1 x (acc ++ [ub - lb]) P') as (h2 & -> & Hv2); [lia|].
    exists h2. split; [|congruence]. by rewrite <-app_assoc.
Qed.

Lemma eq_loop_spec fuel h r1 r2 l1 l2 i2 k :
  pending h r1 (drop k l1) → h !! r2 = Some (mkAABB (Some l2) i2) →
  length l1 = length l2 → (length (drop k l1) < fuel)%nat →
  ∃ h', AABB.eq_loop fuel k r1 r2 h
          = Ok (bool_decide (drop k l1 = drop k l2)) h'
        ∧ view h' = view h.
Proof.
  revert h k i2. induction fuel as [|fuel IH]; intros h k i2 P E2 Hl Hf; [lia|].
  simpl. destruct (drop k l1) as [|a x] eqn:Hd1.
  - exists h. rewrite (bind_Ok _ _ _ _ _ (next_nil _ _ P)). simpl.
    apply drop_nil_inv in Hd1. rewrite (drop_ge l2) by lia.
    by rewrite bool_decide_eq_true_2.
  - destruct (next_cons _ _ _ _ P) as (h1 & E1 & Hv1 & P' & Hfr).
    rewrite (bind_Ok _ _ _ _ _ E1).
    assert (l1 !! k = Some a) as Ha.
    { rewrite <-(Nat.add_0_r k), <-lookup_drop, Hd1. done. }
    assert (k < length l2)%nat as Hk.
    { rewrite <-Hl. by eapply lookup_lt_Some. }
    destruct (lookup_lt_is_Some_2 l2 k Hk) as [b Hb].
    assert (∃ i2', h1 !! r2 = Some (mkAABB (Some l2) i2')) as [i2' E2'].
    { destruct (decide (r2 = r1)) as [->|Hne].
      - destruct P' as (l & i & E & _). exists i.
        assert (view h1 !! r1 = view h !! r1) as Hv by (by rewrite Hv1).
        rewrite !view_lookup, E, E2 in Hv. simpl in Hv. congruence.
      - exists i2. by rewrite Hfr. }
    rewrite (bind_Ok _ _ _ _ _ (getitem_Ok _ _ _ _ _ _ E2' Hb)).
    rewrite (drop_S l2 b k Hb).
    erewrite drop_S in Hd1 by done. injection Hd1 as Hd1.
    destruct a as [a1 a2], b as [b1 b2]. simpl.
    destruct (Z.eqb_spec a1 b1) as [->|Hn1]; simpl.
    + destruct (Z.eqb_spec a2 b2) as [->|Hn2]; simpl.
      * rewrite <-Hd1 in P'.
        destruct (IH h1 (S k) i2' P' E2' Hl) as (h2 & -> & Hv2).
        { rewrite Hd1. simpl in Hf. lia. }
        exists h2. split; [|congruence]. f_equal.
        rewrite Hd1. apply bool_decide_ext. split; [congruence|].
        by intros [= ->].
      * exists h1. split; [|done]. f_equal. symmetry.
        apply bool_decide_eq_false_2. congruence.
    + exists h1. split; [|done]. f_equal. symmetry.
      apply bool_decide_eq_false_2. congruence.
Qed.

(** ** The methods of [AABB] *)

#[global] Arguments AABB.__init__ : simpl never.
#[global] Arguments AABB.__eq__ : simpl never.
#[global] Arguments AABB.__ne__ : simpl never.
#[global] Arguments AABB.merge : simpl never.
#[global] Arguments AABB.perimeter : simpl never.
#[global] Arguments AABB.overlaps : simpl never.

Lemma box_view h h' r l : view h' = view h → box h r l → box h' r l.
Proof. unfold box. by intros ->. Qed.

Lemma rounds_Ok h r l :
  box h r l → AABB.rounds r h = Ok (S (length l)) h.
Proof.
  intros [i E]%box_lookup. unfold AABB.rounds. by mstep (load_Ok _ _ _ E).
Qed.

(** Both iterators of [zip(r1, r2)] are ready after the two [iter] calls,
    also when they are the same object. *)
Lemma iter2_spec h r1 r2 l1 l2 :
  box h r1 l1 → box h r2 l2 →
  ∃ h1 h2, AABB.__iter__ r1 h = Ok r1 h1 ∧ AABB.__iter__ r2 h1 = Ok r2 h2 ∧
           view h2 = view h ∧ pending h2 r1 l1 ∧ pending h2 r2 l2.
Proof.
  intros B1 B2.
  destruct (iter_spec _ _ _ B1) as (h1 & E1 & Hv1 & P1 & _).
  destruct (iter_spec h1 r2 l2) as (h2 & E2 & Hv2 & P2 & Hfr2);
    [by eapply box_view|].
  exists h1, h2. split_and!; [done|done|congruence| |done].
  destruct (decide (r1 = r2)) as [->|Hne].
  - assert (l1 = l2) as -> by (unfold box in *; congruence). done.
  - eapply pending_other; [exact Hfr2|done|done].
Qed.

Lemma overlaps_spec h r1 r2 l1 l2 :
  box h r1 l1 → box h r2 l2 →
  ∃ h', AABB.overlaps r1 r2 h
          = Ok (overlaps_of (bool_decide (r1 = r2)) l1 l2) h'
        ∧ view h' = view h.
Proof.
  intros B1 B2. unfold AABB.overlaps. mstep (rounds_Ok _ _ _ B1).
  destruct (iter2_spec _ _ _ _ _ B1 B2) as (h1 & h2 & E1 & E2 & Hv & P1 & P2).
  mstep E1. mstep E2.
  destruct (overlaps_loop_spec (S (length l1)) _ _ _ _ _ P1 P2)
    as (h3 & E3 & Hv3); [lia|].
  exists h3. split; [done|congruence].
Qed.

Lemma check_limits_Ok l h :
  Forall ivalid l → AABB.check_limits (AABB.as_seq <$> l) h = Ok l h.
Proof.
  induction 1 as [|[lo hi] l Hv _ IH]; [done|]. simpl.
  unfold ivalid in Hv. simpl in Hv.
  destruct (Z.leb_spec lo hi); [|lia]. by mstep IH.
Qed.

Lemma init_Ok l h :
  Forall ivalid l →
  AABB.__init__ (Some (AABB.as_seq <$> l)) h
    = Ok (length h) (h ++ [mkAABB (Some l) 0]).
Proof. intros Hl. unfold AABB.__init__. by mstep (check_limits_Ok _ h Hl). Qed.

Lemma pair_up_fst {A} (l : list A) p : p ∈ pair_up l → p.1 ∈ l.
Proof.
  revert p. induction l as [l IH] using (induction_ltof1 _ (@length A)).
  unfold ltof in IH.
  intros p. destruct l as [|a [|b l]]; simpl; [by intros ?%elem_of_nil..|].
  rewrite elem_of_cons. intros [->|Hp]; [by left|].
  apply IH in Hp; [by do 2 right|simpl; lia].
Qed.

Lemma zipped_fst {A} same (l1 l2 : list A) p :
  p ∈ zipped same l1 l2 → p.1 ∈ l1.
Proof.
  destruct same; simpl; [apply pair_up_fst|].
  destruct p as [a b]. intros Hp. by eapply elem_of_zip_l.
Qed.

Lemma merge_of_ok same l1 l2 : Forall ivalid l1 → Forall ivalid (merge_of same l1 l2).
Proof.
  rewrite !list.Forall_forall. intros Hl q (p & -> & Hp)%list_elem_of_fmap.
  apply zipped_fst, Hl in Hp. unfold ivalid, merge1 in *. simpl. lia.
Qed.

Lemma merged_of_ok same o1 o2 :
  limits_ok o1 → limits_ok o2 → limits_ok (merged_of same o1 o2).
Proof.
  destruct o1, o2; simpl; try done. intros. by apply merge_of_ok.
Qed.

Lemma heap_ok_lookup h r o : heap_ok h → view h !! r = Some o → limits_ok o.
Proof. unfold heap_ok. rewrite list.Forall_lookup. eauto. Qed.

Lemma heap_ok_view h h' : view h' = view h → heap_ok h → heap_ok h'.
Proof. unfold heap_ok. by intros ->. Qed.

Lemma heap_ok_app h o : heap_ok h → limits_ok (limits o) → heap_ok (h ++ [o]).
Proof.
  unfold heap_ok. rewrite view_app. intros. apply list.Forall_app. by repeat constructor.
Qed.

Lemma view_lookup_Some h r o :
  view h !! r = Some o → ∃ i, h !! r = Some (mkAABB o i).
Proof.
  rewrite view_lookup. destruct (h !! r) as [[lo i]|]; simpl; [|done].
  intros [= ->]. eauto.
Qed.

(** [AABB.merge] returns a new object whose limits are [merged_of] the
    limits of the arguments. *)
Lemma merge_spec h r1 r2 o1 o2 :
  heap_ok h → view h !! r1 = Some o1 → view h !! r2 = Some o2 →
  ∃ h', AABB.merge r1 r2 h = Ok (length h) h' ∧
        view h' = view h ++ [merged_of (bool_decide (r1 = r2)) o1 o2].
Proof.
  intros Hok V1 V2.
  destruct (view_lookup_Some _ _ _ V1) as [i1 E1].
  destruct (view_lookup_Some _ _ _ V2) as [i2 E2].
  pose proof (heap_ok_lookup _ _ _ Hok V1) as Hok1.
  pose proof (heap_ok_lookup _ _ _ Hok V2) as Hok2.
  unfold AABB.merge. mstep (load_Ok _ _ _ E1). mstep (load_Ok _ _ _ E2). simpl.
  destruct o1 as [l1|], o2 as [l2|]; simpl.
  - mstep (rounds_Ok _ _ _ V1).
    destruct (iter2_spec _ _ _ _ _ V1 V2) as (h1 & h2 & I1 & I2 & Hv & P1 & P2).
    mstep I1. mstep I2.
    destruct (merge_loop_spec (S (length l1)) _ _ _ _ _ [] P1 P2)
      as (h3 & E3 & Hv3); [lia|].
    mstep E3. simpl.
    rewrite init_Ok.
    + assert (length h3 = length h) as ->.
      { rewrite <-!view_length. congruence. }
      eexists. split; [done|]. rewrite view_app, Hv3, Hv. done.
    + by apply merge_of_ok.
  - rewrite init_Ok by done. eexists. split; [done|]. by rewrite view_app.
  - rewrite init_Ok by done. eexists. split; [done|]. by rewrite view_app.
  - eexists. split; [done|]. by rewrite view_app.
Qed.

Lemma perimeter_spec h r l :
  box h r l →
  ∃ h', AABB.perimeter r h = Ok (perimeter_of l) h' ∧ view h' = view h.
Proof.
  intros B. destruct (box_lookup _ _ _ B) as [i E].
  unfold AABB.perimeter, perimeter_of. mstep (len_Ok _ _ _ _ E).
  destruct (length l =? 1)%nat; [by exists h|].
  mstep (rounds_Ok _ _ _ B).
  destruct (iter_spec _ _ _ B) as (h1 & E1 & Hv1 & P1 & _). mstep E1.
  destruct (side_lens_loop_spec (S (length l)) _ _ _ [] P1) as (h2 & E2 & Hv2);
    [lia|].
  mstep E2. exists h2. split; [done|congruence].
Qed.

Lemma eq_spec h r1 r2 o1 o2 :
  view h !! r1 = Some o1 → view h !! r2 = Some o2 →
  ∃ h', AABB.__eq__ r1 r2 h = Ok (bool_decide (o1 = o2)) h' ∧ view h' = view h.
Proof.
  intros V1 V2.
  destruct (view_lookup_Some _ _ _ V1) as [i1 E1].
  destruct (view_lookup_Some _ _ _ V2) as [i2 E2].
  unfold AABB.__eq__. mstep (load_Ok _ _ _ E1). mstep (load_Ok _ _ _ E2). simpl.
  destruct o1 as [l1|], o2 as [l2|]; simpl; try by exists h.
  mstep (len_Ok _ _ _ _ E1). mstep (len_Ok _ _ _ _ E2).
  destruct (Nat.eqb_spec (length l1) (length l2)) as [Hl|Hl]; simpl.
  - mstep (rounds_Ok _ _ _ V1).
    destruct (iter_spec _ _ _ V1) as (h1 & I1 & Hv1 & P1 & _). mstep I1.
    destruct (box_lookup h1 r2 l2) as [i2' E2']; [by eapply box_view|].
    destruct (eq_loop_spec (S (length l1)) h1 r1 r2 l1 l2 i2' 0)
      as (h2 & E & Hv2); [done|done|done|rewrite drop_0; lia|].
    exists h2. rewrite E. split; [|congruence]. f_equal. rewrite !drop_0.
    apply bool_decide_ext. split; congruence.
  - exists h. split; [|done]. f_equal. symmetry.
    apply bool_decide_eq_false_2. congruence.
Qed.

Lemma ne_spec h r1 r2 o1 o2 :
  view h !! r1 = Some o1 → view h !! r2 = Some o2 →
  ∃ h', AABB.__ne__ r1 r2 h = Ok (negb (bool_decide (o1 = o2))) h'
        ∧ view h' = view h.
Proof.
  intros V1 V2. destruct (eq_spec _ _ _ _ _ V1 V2) as (h' & E & Hv).
  exists h'. unfold AABB.__ne__. by mstep E.
Qed.

(** ** The queries *)

Section Queries.
Context {V : Type}.
Implicit Types (L : list (option (list interval))) (t : AABBTree.t V).

(** Induction on trees: the children are the contents of [left] and
    [right]. *)
Lemma tree_ind (P : AABBTree.t V → Prop) :
  (∀ a v l r, from_option P True l → from_option P True r →
              P (AABBTree.mkAABBTree a v l r)) →
  ∀ t, P t.
Proof.
  intros H. fix IH 1. intros [a v l r]. apply H.
  - destruct l as [x|]; simpl; [apply IH|exact I].
  - destruct r as [x|]; simpl; [apply IH|exact I].
Qed.

Lemma proper_box h t : proper (view h) t → ∃ l, box h (AABBTree.aabb t) l.
Proof. destruct t as [a v [l|] [r|]]; simpl; by intros [? _]. Qed.

Lemma proper_view h h' t :
  view h' = view h → proper (view h) t → proper (view h') t.
Proof. by intros ->. Qed.

Lemma overlaps_in_spec h x q l1 l2 :
  box h x l1 → box h q l2 →
  ∃ h', AABB.overlaps x q h = Ok (overlaps_in (view h) x q) h'
        ∧ view h' = view h.
Proof.
  intros B1 B2. unfold overlaps_in. rewrite B1, B2.
  by apply overlaps_spec.
Qed.

Lemma does_overlap_spec h t q lq :
  proper (view h) t → box h q lq →
  ∃ h', AABBTree.does_overlap t q h = Ok (does_overlap_of (view h) t q) h'
        ∧ view h' = view h.
Proof.
  revert h. induction t as [a v l r IHl IHr] using tree_ind.
  intros h Hp Bq. destruct (proper_box _ _ Hp) as [la Ba].
  destruct l as [l|], r as [r|]; simpl in Hp |- *; try tauto.
  - destruct Hp as (_ & Hpl & Hpr).
    destruct (proper_box _ _ Hpl) as [ll Bl].
    destruct (proper_box _ _ Hpr) as [lr Br].
    unfold AABBTree.is_leaf. simpl.
    destruct (overlaps_in_spec _ _ _ _ _ Bl Bq) as (h1 & E1 & Hv1).
    mstep E1.
    destruct (overlaps_in_spec h1 (AABBTree.aabb r) q lr lq)
      as (h2 & E2 & Hv2); [by eapply box_view..|].
    rewrite Hv1 in E2. mstep E2.
    assert (view h2 = view h) as Hv2' by congruence.
    destruct (overlaps_in (view h) (AABBTree.aabb l) q); simpl.
    + destruct (IHl h2) as (h3 & E3 & Hv3);
        [by eapply proper_view|by eapply box_view|].
      rewrite Hv2' in E3. mstep E3.
      destruct (does_overlap_of (view h) l q); simpl.
      { exists h3. split; [done|congruence]. }
      destruct (overlaps_in (view h) (AABBTree.aabb r) q); simpl.
      * destruct (IHr h3) as (h4 & E4 & Hv4);
          [eapply proper_view; [|done]; congruence
          |eapply box_view; [|done]; congruence|].
        assert (view h3 = view h) as Hv3' by congruence.
        rewrite Hv3' in E4. mstep E4.
        exists h4. split; [by destruct (does_overlap_of _ r q)|congruence].
      * exists h3. split; [done|congruence].
    + destruct (overlaps_in (view h) (AABBTree.aabb r) q); simpl.
      * destruct (IHr h2) as (h4 & E4 & Hv4);
          [by eapply proper_view|by eapply box_view|].
        rewrite Hv2' in E4. mstep E4.
        exists h4. split; [by destruct (does_overlap_of _ r q)|congruence].
      * by exists h2.
  - unfold AABBTree.is_leaf. simpl. by eapply overlaps_in_spec.
Qed.

Lemma overlap_values_spec h t q lq :
  proper (view h) t → box h q lq →
  ∃ h', AABBTree.overlap_values t q h
          = Ok (overlap_values_of (view h) t q) h'
        ∧ view h' = view h.
Proof.
  revert h. induction t as [a v l r IHl IHr] using tree_ind.
  intros h Hp Bq. destruct (proper_box _ _ Hp) as [la Ba].
  destruct l as [l|], r as [r|]; simpl in Hp |- *; try tauto.
  - destruct Hp as (_ & Hpl & Hpr).
    destruct (proper_box _ _ Hpl) as [ll Bl].
    destruct (proper_box _ _ Hpr) as [lr Br].
    unfold AABBTree.is_leaf. simpl.
    destruct (overlaps_in_spec _ _ _ _ _ Bl Bq) as (h1 & E1 & Hv1).
    mstep E1.
    assert (∃ h2, (if overlaps_in (view h) (AABBTree.aabb l) q
                   then vs ← AABBTree.overlap_values l q; mret ([] ++ vs)
                   else mret []) h1
                  = Ok (if overlaps_in (view h) (AABBTree.aabb l) q
                        then overlap_values_of (view h) l q else []) h2
                  ∧ view h2 = view h) as (h2 & E2 & Hv2).
    { destruct (overlaps_in (view h) (AABBTree.aabb l) q); [|by exists h1].
      destruct (IHl h1) as (h2 & E2 & Hv2);
        [by eapply proper_view|by eapply box_view|].
      rewrite Hv1 in E2. exists h2. mstep E2. split; [done|congruence]. }
    mstep E2.
    destruct (overlaps_in_spec h2 (AABBTree.aabb r) q lr lq)
      as (h3 & E3 & Hv3); [by eapply box_view..|].
    rewrite Hv2 in E3. mstep E3.
    assert (view h3 = view h) as Hv3' by congruence.
    destruct (overlaps_in (view h) (AABBTree.aabb r) q); simpl.
    + destruct (IHr h3) as (h4 & E4 & Hv4);
        [by eapply proper_view|by eapply box_view|].
      rewrite Hv3' in E4. mstep E4. exists h4. split; [done|congruence].
    + exists h3. split; [|done]. by rewrite app_nil_r.
  - unfold AABBTree.is_leaf. simpl in Ba |- *.
    destruct (overlaps_in_spec _ _ _ _ _ Ba Bq) as (h1 & E1 & Hv1).
    mstep E1. exists h1.
    destruct (overlaps_in (view h) a q); (split; [reflexivity|done]).
Qed.

(** On the pure side the two queries agree. *)
Lemma does_overlap_of_values L t q :
  does_overlap_of L t q = negb (bool_decide (overlap_values_of L t q = [])).
Proof.
  induction t as [a v l r IHl IHr] using tree_ind.
  destruct l as [l|], r as [r|]; simpl in *;
    try by destruct (overlaps_in L a q).
  rewrite IHl, IHr.
  destruct (overlaps_in L (AABBTree.aabb l) q),
           (overlaps_in L (AABBTree.aabb r) q); simpl;
    destruct (overlap_values_of L l q), (overlap_values_of L r q); done.
Qed.

End Queries.

(** ** [copy.deepcopy] *)

Section Deepcopy.
Context {V : Type}.
Implicit Types (L : list (option (list interval))) (t : AABBTree.t V).

Lemma view_prefix_lookup h h' r o :
  view h `prefix_of` view h' → view h !! r = Some o → view h' !! r = Some o.
Proof. intros Hp E. by eapply prefix_lookup_Some. Qed.

Lemma view_prefix_length h h' :
  view h `prefix_of` view h' → (length h ≤ length h')%nat.
Proof. intros Hp%prefix_length. by rewrite !view_length in Hp. Qed.

Lemma view_prefix_valid h h' r :
  view h `prefix_of` view h' → (r < length h)%nat →
  view h' !! r = view h !! r.
Proof.
  intros Hp Hr. destruct (lookup_lt_is_Some_2 (view h) r) as [o E].
  { by rewrite view_length. }
  rewrite E. by eapply view_prefix_lookup.
Qed.

Lemma heap_ok_alloc_copy h r o :
  heap_ok h → h !! r = Some o → heap_ok (h ++ [o]).
Proof.
  intros Hok E. apply heap_ok_app; [done|].
  eapply heap_ok_lookup; [done|]. by rewrite view_lookup, E.
Qed.

Lemma abs_prefix L L' t :
  L `prefix_of` L' → Forall (λ r, r < length L)%nat (refs t) →
  abs L' t = abs L t.
Proof.
  intros Hp. induction t as [a v l r IHl IHr] using tree_ind.
  simpl. rewrite list.Forall_cons, list.Forall_app. intros (Ha & Hl & Hr).
  f_equal.
  - unfold lims_at. destruct (lookup_lt_is_Some_2 L a Ha) as [o E].
    by rewrite E, (prefix_lookup_Some _ _ _ _ E Hp).
  - destruct l; simpl in *; [f_equal; auto|done].
  - destruct r; simpl in *; [f_equal; auto|done].
Qed.

Lemma deepcopy_aabb_spec n0 h m r :
  heap_ok h → (n0 ≤ length h)%nat → memo_ok n0 h m → memo_inj m →
  (r < length h)%nat →
  ∃ c m' h', AABBTree.deepcopy_aabb m r h = Ok (c, m') h' ∧
    heap_ok h' ∧ view h `prefix_of` view h' ∧ memo_ok n0 h' m' ∧
    (n0 ≤ c < length h')%nat ∧ view h' !! c = view h !! r ∧
    memo_inj m' ∧ memo_ext m m' ∧ memo_get m' r = Some c.
Proof.
  intros Hok Hn Hm Hinj Hr. unfold AABBTree.deepcopy_aabb.
  destruct (memo_get m r) as [c|] eqn:Eg.
  - exists c, m, h. destruct (Hm _ _ Eg) as [Hc Hv].
    split_and!; [reflexivity|done|reflexivity|done|lia|lia|done|done| |done].
    by intros ? ?.
  - destruct (lookup_lt_is_Some_2 h r Hr) as [o E].
    mstep (load_Ok _ _ _ E). unfold alloc, bind, mbind, M_bind. simpl.
    eexists _, _, _. split; [done|].
    assert (view h `prefix_of` view (h ++ [o])) as Hp.
    { rewrite view_app. by apply prefix_app_r. }
    split_and!.
    + by eapply heap_ok_alloc_copy.
    + done.
    + intros k c. simpl. case_decide as Hk.
      * intros [= <-]. subst k. rewrite length_app. simpl.
        split; [lia|]. rewrite view_app, lookup_app_r, view_length, Nat.sub_diag
          by (rewrite view_length; lia).
        rewrite (lookup_app_l (view h)) by (by rewrite view_length).
        by rewrite view_lookup, E.
      * intros Hg. destruct (Hm _ _ Hg) as [Hc Hv]. rewrite length_app.
        split; [lia|].
        rewrite (view_prefix_valid h _ c Hp) by lia.
        destruct (lookup_lt_is_Some_2 (view h) c) as [oc Ec].
        { rewrite view_length. lia. }
        rewrite Ec. symmetry. eapply view_prefix_lookup; [done|congruence].
    + done.
    + rewrite length_app. simpl. lia.
    + rewrite view_app, lookup_app_r, view_length, Nat.sub_diag
        by (rewrite view_length; lia).
      by rewrite view_lookup, E.
    + intros k1 k2 c. simpl. repeat case_decide; subst.
      * done.
      * intros [= <-] Hg. apply Hm in Hg. lia.
      * intros Hg [= <-]. apply Hm in Hg. lia.
      * apply Hinj.
    + intros k c Hg. simpl. case_decide; [congruence|done].
    + simpl. by rewrite decide_True.
Qed.

Lemma copied_ext m m' (t t' : AABBTree.t V) :
  memo_ext m m' → copied m t t' → copied m' t t'.
Proof.
  intros Hext. revert t'. induction t as [a v l r IHl IHr] using tree_ind.
  intros [a' v' l' r']. simpl. intros (Ha & Hl & Hr). split_and!.
  - by apply Hext.
  - destruct l, l'; simpl in *; auto.
  - destruct r, r'; simpl in *; auto.
Qed.

Lemma copied_siblings m (t t' : AABBTree.t V) :
  memo_inj m → copied m t t' → siblings_differ t → siblings_differ t'.
Proof.
  intros Hinj. revert t'. induction t as [a v l r IHl IHr] using tree_ind.
  intros [a' v' l' r']. simpl. intros (Ha & Hl & Hr).
  destruct l as [l|], l' as [l'|], r as [r|], r' as [r'|]; simpl in *;
    try tauto.
  intros (Hne & Hsl & Hsr). split_and!; [|auto..].
  intros Heq. apply Hne.
  destruct l, l', r, r'; simpl in *.
  destruct Hl as (Hgl & _), Hr as (Hgr & _). rewrite Heq in Hgl.
  by eapply Hinj.
Qed.

Lemma deepcopy_memo_spec n0 t :
  ∀ h m, heap_ok h → (n0 ≤ length h)%nat → memo_ok n0 h m → memo_inj m →
  Forall (λ r, r < length h)%nat (refs t) →
  ∃ t' m' h', AABBTree.deepcopy_memo m t h = Ok (t', m') h' ∧
    heap_ok h' ∧ view h `prefix_of` view h' ∧ memo_ok n0 h' m' ∧
    Forall (λ r, n0 ≤ r < length h')%nat (refs t') ∧
    abs (view h') t' = abs (view h) t ∧
    memo_inj m' ∧ memo_ext m m' ∧ copied m' t t'.
Proof.
  induction t as [a v l r IHl IHr] using tree_ind.
  intros h m Hok Hn Hm Hinj. simpl. rewrite list.Forall_cons, list.Forall_app.
  intros (Ha & Hl & Hr).
  destruct (deepcopy_aabb_spec n0 h m a Hok Hn Hm Hinj Ha)
    as (c & m1 & h1 & E1 & Hok1 & Hp1 & Hm1 & Hc & Hvc & Hinj1 & Hext1 & Hg1).
  mstep E1. simpl.
  pose proof (view_prefix_length _ _ Hp1) as Hlen1.
  (* the left child *)
  assert (∃ l' m2 h2,
    match l with
    | None => mret (None, m1)
    | Some l0 => r0 ← AABBTree.deepcopy_memo m1 l0; mret (Some r0.1, r0.2)
    end h1 = Ok (l', m2) h2 ∧
    heap_ok h2 ∧ view h1 `prefix_of` view h2 ∧ memo_ok n0 h2 m2 ∧
    Forall (λ r, n0 ≤ r < length h2)%nat
           (match l' with Some x => refs x | None => [] end) ∧
    match l' with Some x => Some (abs (view h2) x) | None => None end
    = match l with Some x => Some (abs (view h) x) | None => None end ∧
    memo_inj m2 ∧ memo_ext m1 m2 ∧
    match l, l' with
    | Some x, Some x' => copied m2 x x'
    | None, None => True
    | _, _ => False
    end)
    as (l' & m2 & h2 & E2 & Hok2 & Hp2 & Hm2 & Hrl & Hal & Hinj2 & Hext2 & Hcl).
  { destruct l as [l0|]; simpl in IHl.
    - destruct (IHl h1 m1)
        as (l' & m2 & h2 & E & ? & ? & ? & ? & Hab & ? & ? & ?);
        [done|lia|done|done| |].
      { eapply list.Forall_impl; [exact Hl|]. simpl. lia. }
      exists (Some l'), m2, h2. mstep E. split_and!; try done.
      f_equal. rewrite Hab. apply abs_prefix; [done|].
      by rewrite view_length.
    - exists None, m1, h1. split_and!; try done. by intros ? ?. }
  mstep E2. simpl.
  pose proof (view_prefix_length _ _ Hp2) as Hlen2.
  assert (∃ r' m3 h3,
    match r with
    | None => mret (None, m2)
    | Some l0 => r0 ← AABBTree.deepcopy_memo m2 l0; mret (Some r0.1, r0.2)
    end h2 = Ok (r', m3) h3 ∧
    heap_ok h3 ∧ view h2 `prefix_of` view h3 ∧ memo_ok n0 h3 m3 ∧
    Forall (λ r, n0 ≤ r < length h3)%nat
           (match r' with Some x => refs x | None => [] end) ∧
    match r' with Some x => Some (abs (view h3) x) | None => None end
    = match r with Some x => Some (abs (view h) x) | None => None end ∧
    memo_inj m3 ∧ memo_ext m2 m3 ∧
    match r, r' with
    | Some x, Some x' => copied m3 x x'
    | None, None => True
    | _, _ => False
    end)
    as (r' & m3 & h3 & E3 & Hok3 & Hp3 & Hm3 & Hrr & Har & Hinj3 & Hext3 & Hcr).
  { destruct r as [r0|]; simpl in IHr.
    - destruct (IHr h2 m2)
        as (r' & m3 & h3 & E & ? & ? & ? & ? & Hab & ? & ? & ?);
        [done|lia|done|done| |].
      { eapply list.Forall_impl; [exact Hr|]. simpl. lia. }
      exists (Some r'), m3, h3. mstep E. split_and!; try done.
      f_equal. rewrite Hab. apply abs_prefix; [by etrans|].
      by rewrite view_length.
    - exists None, m2, h2. split_and!; try done. by intros ? ?. }
  mstep E3. simpl.
  pose proof (view_prefix_length _ _ Hp3) as Hlen3.
  eexists _, _, _. split; [done|]. split_and!; try done.
  - by do 2 (etrans; [eassumption|]).
  - simpl. rewrite list.Forall_cons, list.Forall_app.
    split_and!; [lia|lia| |done].
    eapply list.Forall_impl; [exact Hrl|]. simpl. lia.
  - simpl. f_equal.
    + unfold lims_at.
      rewrite (view_prefix_valid h1 h3 c); [by rewrite Hvc|by etrans|lia].
    + rewrite <-Hal. destruct l' as [x|]; [|done]. f_equal.
      apply abs_prefix; [done|]. rewrite view_length.
      eapply list.Forall_impl; [exact Hrl|]. simpl. lia.
    + done.
  - intros k c0 Hg. by apply Hext3, Hext2, Hext1.
  - by apply Hext3, Hext2.
  - destruct l as [x|], l' as [x'|]; try done.
    by eapply copied_ext.
Qed.

Lemma deepcopy_spec t h :
  heap_ok h → Forall (λ r, r < length h)%nat (refs t) →
  ∃ t' h', AABBTree.deepcopy t h = Ok t' h' ∧
    heap_ok h' ∧ view h `prefix_of` view h' ∧
    Forall (λ r, length h ≤ r < length h')%nat (refs t') ∧
    abs (view h') t' = abs (view h) t ∧
    (siblings_differ t → siblings_differ t').
Proof.
  intros Hok Hr.
  assert (memo_ok (length h) h []) as Hm by (by intros ? ? [=]).
  assert (memo_inj []) as Hinj by (by intros ? ? ? [=]).
  destruct (deepcopy_memo_spec (length h) t h [] Hok (le_n _) Hm Hinj Hr) as
    (t' & m' & h' & E & ? & ? & ? & ? & ? & ? & ? & ?).
  exists t', h'. unfold AABBTree.deepcopy. mstep E.
  split_and!; try done. by eapply copied_siblings.
Qed.

End Deepcopy.

(** ** [add] *)

Section Add.
Context {V : Type}.
Implicit Types (L : list (option (list interval))) (t : AABBTree.t V).

Lemma init_None_Ok h :
  AABB.__init__ None h = Ok (length h) (h ++ [mkAABB None 0]).
Proof. done. Qed.

(** The test [self.aabb == AABB()] that opens [add]. *)
Lemma uninitialized_test h r o :
  view h !! r = Some o →
  ∃ h', view h' = view h ++ [None] ∧
    ∀ B (k : bool → M B),
      (empty ← AABB.__init__ None; un ← AABB.__eq__ r empty; k un) h
      = k (match o with None => true | Some _ => false end) h'.
Proof.
  intros E.
  destruct (eq_spec (h ++ [mkAABB None 0]) r (length h) o None)
    as (h' & E' & Hv).
  - rewrite view_app. apply lookup_app_l_Some. done.
  - rewrite view_app, lookup_app_r, view_length, Nat.sub_diag
      by (by rewrite view_length). done.
  - exists h'. split; [by rewrite Hv, view_app|]. intros B k.
    mstep (init_None_Ok h). mstep E'. by destruct o.
Qed.

Lemma add_unfold t b v :
  AABBTree.add t b v =
  (empty ← AABB.__init__ None;
   uninitialized ← AABB.__eq__ (AABBTree.aabb t) empty;
   if (uninitialized : bool) then
     mret (AABBTree.mkAABBTree b v (AABBTree.left t) (AABBTree.right t))
   else if AABBTree.is_leaf t then
     l ← AABBTree.deepcopy t;
     let r := AABBTree.__init__ b v None None in
     merged ← AABB.merge (AABBTree.aabb t) b;
     mret (AABBTree.mkAABBTree merged None (Some l) (Some r))
   else
     tree_p ← AABB.perimeter (AABBTree.aabb t);
     tree_merge ← AABB.merge (AABBTree.aabb t) b;
     tree_merge_p ← AABB.perimeter tree_merge;
     let new_parent_cost := 2 * tree_merge_p in
     let min_pushdown_cost := 2 * (tree_merge_p - tree_p) in
     sl ← AABBTree.child (AABBTree.left t);
     left_merge ← AABB.merge (AABBTree.aabb sl) b;
     left_merge_p ← AABB.perimeter left_merge;
     let cost_left := left_merge_p + min_pushdown_cost in
     cost_left ← (if negb (AABBTree.is_leaf sl)
                  then p ← AABB.perimeter (AABBTree.aabb sl);
                       mret (cost_left - p)
                  else mret cost_left);
     sr ← AABBTree.child (AABBTree.right t);
     right_merge ← AABB.merge (AABBTree.aabb sr) b;
     right_merge_p ← AABB.perimeter right_merge;
     let cost_right := right_merge_p + min_pushdown_cost in
     cost_right ← (if negb (AABBTree.is_leaf sr)
                   then p ← AABB.perimeter (AABBTree.aabb sr);
                        mret (cost_right - p)
                   else mret cost_right);
     self' ← (if new_parent_cost <? Z.min cost_left cost_right then
                l ← AABBTree.deepcopy t;
                let r := AABBTree.__init__ b v None None in
                mret (AABBTree.mkAABBTree (AABBTree.aabb t) None
                                          (Some l) (Some r))
              else if cost_left <? cost_right then
                match AABBTree.left t with
                | Some l =>
                    l' ← AABBTree.add l b v;
                    mret (AABBTree.mkAABBTree (AABBTree.aabb t)
                            (AABBTree.value t) (Some l') (AABBTree.right t))
                | None => raise AttributeError
                end
              else
                match AABBTree.right t with
                | Some r =>
                    r' ← AABBTree.add r b v;
                    mret (AABBTree.mkAABBTree (AABBTree.aabb t)
                            (AABBTree.value t) (AABBTree.left t) (Some r'))
                | None => raise AttributeError
                end);
     sl ← AABBTree.child (AABBTree.left self');
     sr ← AABBTree.child (AABBTree.right self');
     merged ← AABB.merge (AABBTree.aabb sl) (AABBTree.aabb sr);
     mret (AABBTree.mkAABBTree merged (AABBTree.value self')
                               (AABBTree.left self') (AABBTree.right self'))).
Proof. by destruct t. Qed.

(** The first insertion: the root takes the box and the value in place. *)
Lemma add_uninitialized h t b v :
  view h !! AABBTree.aabb t = Some None →
  ∃ h', AABBTree.add t b v h
          = Ok (AABBTree.mkAABBTree b v (AABBTree.left t) (AABBTree.right t)) h'
        ∧ view h' = view h ++ [None].
Proof.
  intros E. rewrite add_unfold.
  destruct (uninitialized_test _ _ _ E) as (h' & Hv & E').
  rewrite E'. by exists h'.
Qed.

End Add.

Section AddSteps.
Context {V : Type}.
Implicit Types (L : list (option (list interval))) (t : AABBTree.t V).

Lemma box_prefix h h' r l :
  view h `prefix_of` view h' → box h r l → box h' r l.
Proof. unfold box. intros. by eapply view_prefix_lookup. Qed.

Lemma heap_ok_snoc h h' o :
  heap_ok h → view h' = view h ++ [o] → limits_ok o → heap_ok h'.
Proof.
  unfold heap_ok. intros Hok -> Ho. apply list.Forall_app.
  by repeat constructor.
Qed.

Lemma merge_ok h r1 r2 o1 o2 :
  heap_ok h → view h !! r1 = Some o1 → view h !! r2 = Some o2 →
  ∃ h', AABB.merge r1 r2 h = Ok (length h) h' ∧
        view h' = view h ++ [merged_of (bool_decide (r1 = r2)) o1 o2] ∧
        heap_ok h'.
Proof.
  intros Hok V1 V2. destruct (merge_spec _ _ _ _ _ Hok V1 V2) as (h' & E & Hv).
  exists h'. split_and!; [done..|].
  eapply heap_ok_snoc; [done..|].
  apply merged_of_ok; by eapply heap_ok_lookup.
Qed.

Lemma snoc_prefix h h' o :
  view h' = view h ++ [o] → view h `prefix_of` view h'.
Proof. intros ->. by apply prefix_app_r. Qed.

Lemma snoc_last h h' o :
  view h' = view h ++ [o] → view h' !! length h = Some o.
Proof.
  intros ->. rewrite lookup_app_r, view_length, Nat.sub_diag
    by (by rewrite view_length). done.
Qed.

(** [p ← AABB.merge(x, b).perimeter] *)
Lemma merge_perimeter_run h x b lx lb :
  heap_ok h → box h x lx → box h b lb →
  ∃ h', heap_ok h' ∧ view h `prefix_of` view h' ∧
    ∀ B (k : Z → M B),
      (m ← AABB.merge x b; p ← AABB.perimeter m; k p) h
      = k (merge_perimeter x b lx lb) h'.
Proof.
  intros Hok Bx Bb.
  destruct (merge_ok _ _ _ _ _ Hok Bx Bb) as (h1 & E1 & Hv1 & Hok1).
  destruct (perimeter_spec h1 (length h)
              (merge_of (bool_decide (x = b)) lx lb)) as (h2 & E2 & Hv2).
  { by eapply snoc_last. }
  exists h2. split_and!.
  - by eapply heap_ok_view.
  - rewrite Hv2. by eapply snoc_prefix.
  - intros B k. mstep E1. by mstep E2.
Qed.

Lemma perimeter_run h x lx :
  box h x lx →
  ∃ h', view h' = view h ∧
    ∀ B (k : Z → M B),
      (p ← AABB.perimeter x; k p) h = k (perimeter_of lx) h'.
Proof.
  intros Bx. destruct (perimeter_spec _ _ _ Bx) as (h' & E & Hv).
  exists h'. split; [done|]. intros B k. by mstep E.
Qed.

(** The cost of one child, as [add] computes it. *)
Lemma child_cost_run h (c : AABBTree.t V) b lc lb pushdown :
  heap_ok h → box h (AABBTree.aabb c) lc → box h b lb →
  ∃ h', heap_ok h' ∧ view h `prefix_of` view h' ∧
    ∀ B (k : Z → M B),
      (merge ← AABB.merge (AABBTree.aabb c) b;
       merge_p ← AABB.perimeter merge;
       cost ← (if negb (AABBTree.is_leaf c)
               then p ← AABB.perimeter (AABBTree.aabb c);
                    mret (merge_p + pushdown - p)
               else mret (merge_p + pushdown));
       k cost) h
      = k (child_cost pushdown c lc b lb) h'.
Proof.
  intros Hok Bc Bb.
  destruct (merge_perimeter_run _ _ _ _ _ Hok Bc Bb) as (h1 & Hok1 & Hp1 & E1).
  unfold child_cost. destruct (AABBTree.is_leaf c); simpl.
  - exists h1. split_and!; [done..|]. intros B k. rewrite E1.
    by rewrite bind_ret.
  - destruct (perimeter_run h1 (AABBTree.aabb c) lc) as (h2 & Hv2 & E2).
    { by eapply box_prefix. }
    exists h2. split_and!.
    + by eapply heap_ok_view.
    + by rewrite Hv2.
    + intros B k. rewrite E1, bind_assoc, E2. by rewrite bind_ret.
Qed.

Lemma is_leaf_internal t sl sr :
  AABBTree.left t = Some sl → AABBTree.right t = Some sr →
  AABBTree.is_leaf t = false.
Proof. unfold AABBTree.is_leaf. by intros -> _. Qed.

(** What [add] does at an internal node: the split or the descent is
    chosen by comparing the three costs. *)
Lemma add_internal_run h (self sl sr : AABBTree.t V) b v ls ll lr lb :
  heap_ok h →
  AABBTree.left self = Some sl → AABBTree.right self = Some sr →
  box h (AABBTree.aabb self) ls → box h (AABBTree.aabb sl) ll →
  box h (AABBTree.aabb sr) lr → box h b lb →
  let tree_merge_p := merge_perimeter (AABBTree.aabb self) b ls lb in
  let direct_cost := 2 * tree_merge_p in
  let pushdown := 2 * (tree_merge_p - perimeter_of ls) in
  let cost_left := child_cost pushdown sl ll b lb in
  let cost_right := child_cost pushdown sr lr b lb in
  ∃ h1, heap_ok h1 ∧ view h `prefix_of` view h1 ∧
    AABBTree.add self b v h =
      (if direct_cost <? Z.min cost_left cost_right then split_here self b v
       else if cost_left <? cost_right then descend_left self sl sr b v
       else descend_right self sl sr b v) h1.
Proof.
  intros Hok El Er Bs Bl Br Bb. simpl.
  destruct (uninitialized_test _ _ _ Bs) as (h1 & Hv1 & E1).
  assert (view h `prefix_of` view h1) as Hp1 by (by eapply snoc_prefix).
  assert (heap_ok h1) as Hok1 by (by eapply heap_ok_snoc).
  destruct (perimeter_run h1 (AABBTree.aabb self) ls) as (h2 & Hv2 & E2).
  { by eapply box_prefix. }
  assert (view h `prefix_of` view h2) as Hp2 by (by rewrite Hv2).
  assert (heap_ok h2) as Hok2 by (by eapply heap_ok_view).
  destruct (merge_perimeter_run h2 (AABBTree.aabb self) b ls lb)
    as (h3 & Hok3 & Hp3 & E3); [done|by eapply box_prefix..|].
  assert (view h `prefix_of` view h3) as Hp3' by (by etrans).
  set (pushdown := 2 * (merge_perimeter (AABBTree.aabb self) b ls lb
                        - perimeter_of ls)).
  destruct (child_cost_run h3 sl b ll lb pushdown)
    as (h4 & Hok4 & Hp4 & E4); [done|by eapply box_prefix..|].
  assert (view h `prefix_of` view h4) as Hp4' by (by etrans).
  destruct (child_cost_run h4 sr b lr lb pushdown)
    as (h5 & Hok5 & Hp5 & E5); [done|by eapply box_prefix..|].
  exists h5. split_and!; [done|by etrans|].
  rewrite add_unfold, E1, (is_leaf_internal _ _ _ El Er), E2, E3.
  rewrite El, Er. simpl. rewrite bind_ret, E4, bind_ret, E5.
  fold pushdown.
  destruct (_ <? Z.min _ _).
  { unfold split_here. rewrite bind_assoc.
    unfold mbind, M_bind, bind. simpl.
    by destruct (AABBTree.deepcopy self h5). }
  destruct (_ <? _).
  - unfold descend_left. rewrite bind_assoc.
    unfold mbind, M_bind, bind. simpl.
    by destruct (AABBTree.add sl b v h5).
  - unfold descend_right. rewrite bind_assoc.
    unfold mbind, M_bind, bind. simpl.
    by destruct (AABBTree.add sr b v h5).
Qed.

(** What [add] does at a leaf that holds an item. *)
Lemma add_leaf_run h (self : AABBTree.t V) b v ls :
  AABBTree.is_leaf self = true → box h (AABBTree.aabb self) ls →
  ∃ h1, view h1 = view h ++ [None] ∧
    AABBTree.add self b v h =
      (l ← AABBTree.deepcopy self;
       merged ← AABB.merge (AABBTree.aabb self) b;
       mret (AABBTree.mkAABBTree merged None (Some l)
               (Some (AABBTree.__init__ b v None None)))) h1.
Proof.
  intros Hleaf Bs.
  destruct (uninitialized_test _ _ _ Bs) as (h1 & Hv1 & E1).
  exists h1. split; [done|]. by rewrite add_unfold, E1, Hleaf.
Qed.

End AddSteps.

Section AddSpec.
Context {V : Type}.
Implicit Types (L : list (option (list interval))) (t : AABBTree.t V).

Lemma lims_at_box h r l : box h r l → lims_at (view h) r = Some l.
Proof. unfold box, lims_at. by intros ->. Qed.

Lemma lims_at_Some L r l : lims_at L r = Some l ↔ L !! r = Some (Some l).
Proof.
  unfold lims_at. destruct (L !! r) as [[?|]|]; simpl; split; congruence.
Qed.

Lemma proper_abs L t : proper L t ↔ v_proper (abs L t).
Proof.
  induction t as [a v l r IHl IHr] using tree_ind. simpl.
  assert ((∃ l0, L !! a = Some (Some l0)) ↔ is_Some (lims_at L a)) as ->.
  { unfold is_Some. by setoid_rewrite lims_at_Some. }
  destruct l as [l|], r as [r|]; simpl in *; try tauto.
Qed.

Lemma proper_valid h t :
  proper (view h) t → Forall (λ r, r < length h)%nat (refs t).
Proof.
  induction t as [a v l r IHl IHr] using tree_ind. simpl.
  intros [[la Ha] Hc]. apply list.Forall_cons. split.
  { rewrite <-view_length. by eapply lookup_lt_Some. }
  apply list.Forall_app.
  destruct l as [l|], r as [r|]; simpl in *; try tauto.
  by split; constructor.
Qed.

Lemma abs_view_prefix h h' t :
  view h `prefix_of` view h' → proper (view h) t →
  abs (view h') t = abs (view h) t.
Proof.
  intros Hp Hpr. apply abs_prefix; [done|].
  rewrite view_length. by apply proper_valid.
Qed.

Lemma proper_prefix h h' t :
  view h `prefix_of` view h' → proper (view h) t → proper (view h') t.
Proof.
  intros Hp Hpr. apply proper_abs. rewrite (abs_view_prefix h h') by done.
  by apply proper_abs.
Qed.

Lemma vbox_abs L t : vbox (abs L t) = lims_at L (AABBTree.aabb t).
Proof. by destruct t. Qed.

Lemma v_is_leaf_abs L t : v_is_leaf (abs L t) = AABBTree.is_leaf t.
Proof. by destruct t as [a v [l|] [r|]]. Qed.

Lemma child_cost_abs h (c : AABBTree.t V) lc b lb pushdown :
  box h (AABBTree.aabb c) lc → AABBTree.aabb c ≠ b →
  child_cost pushdown c lc b lb = v_cost pushdown lb (abs (view h) c).
Proof.
  intros Bc Hne. unfold child_cost, v_cost, merge_perimeter.
  rewrite v_is_leaf_abs, vbox_abs, (lims_at_box _ _ _ Bc).
  by rewrite bool_decide_eq_false_2.
Qed.

(** The split of a node: a copy of the node becomes the left child and
    the new item the right child. *)
Lemma split_here_spec h t b v ls lb :
  heap_ok h → proper (view h) t → box h (AABBTree.aabb t) ls → box h b lb →
  ∃ t' h', split_here t b v h = Ok t' h' ∧ heap_ok h' ∧
    view h `prefix_of` view h' ∧ proper (view h') t' ∧
    (length h ≤ AABBTree.aabb t' < length h')%nat ∧
    (∀ r, r ∈ refs t' → r = b ∨ (length h ≤ r)%nat) ∧
    abs (view h') t'
    = VNode (Some (merge_of false ls lb)) None
            (Some (abs (view h) t)) (Some (v_leaf lb v)) ∧
    (siblings_differ t → siblings_differ t').
Proof.
  intros Hok Hpr Bs Bb.
  destruct (deepcopy_spec t h Hok (proper_valid _ _ Hpr))
    as (l & h1 & E1 & Hok1 & Hp1 & Hfr & Habs & Hsib).
  assert (proper (view h1) l) as Hprl.
  { apply proper_abs. rewrite Habs. by apply proper_abs. }
  assert (lims_at (view h1) (AABBTree.aabb l) = Some ls) as Hll.
  { by rewrite <-vbox_abs, Habs, vbox_abs, (lims_at_box _ _ _ Bs). }
  apply lims_at_Some in Hll.
  assert (length h ≤ AABBTree.aabb l)%nat as Hroot.
  { destruct l; simpl in *. apply list.Forall_cons in Hfr. lia. }
  assert (b < length h)%nat as Hb.
  { rewrite <-view_length. by eapply lookup_lt_Some. }
  destruct (merge_ok h1 (AABBTree.aabb l) b (Some ls) (Some lb))
    as (h2 & E2 & Hv2 & Hok2); [done|done|by eapply box_prefix|].
  rewrite bool_decide_eq_false_2 in Hv2 by lia. simpl in Hv2.
  pose proof (snoc_prefix _ _ _ Hv2) as Hp2.
  pose proof (view_prefix_length _ _ Hp1) as Hlen1.
  pose proof (view_prefix_length _ _ Hp2) as Hlen2.
  assert (length h2 = S (length h1)) as Hlen2'.
  { rewrite <-!view_length, Hv2, length_app. simpl. lia. }
  eexists _, h2. unfold split_here. mstep E1. simpl. mstep E2.
  split; [reflexivity|]. split_and!.
  - done.
  - by etrans.
  - simpl. split; [|split].
    + eexists. by eapply snoc_last.
    + by eapply proper_prefix.
    + split; [|done]. eexists. eapply box_prefix; [|exact Bb]. by etrans.
  - simpl. lia.
  - simpl. lia.
  - simpl. intros r. rewrite elem_of_cons, elem_of_app, list_elem_of_singleton.
    intros [->|[Hr| ->]]; [right; lia| |by left].
    right. rewrite list.Forall_forall in Hfr. apply Hfr in Hr. lia.
  - simpl. f_equal.
    + unfold lims_at. by rewrite (snoc_last _ _ _ Hv2).
    + f_equal. by rewrite (abs_view_prefix h1 h2), Habs.
    + unfold v_leaf. do 2 f_equal. apply lims_at_box.
      eapply box_prefix; [|exact Bb]. by etrans.
  - simpl. intros Hs. split_and!; [lia|by apply Hsib|done].
Qed.

End AddSpec.

#[global] Arguments AABBTree.add : simpl never.
#[global] Arguments AABBTree.deepcopy : simpl never.

Section AddMain.
Context {V : Type}.
Implicit Types (L : list (option (list interval))) (t : AABBTree.t V).

Lemma aabb_in_refs t : AABBTree.aabb t ∈ refs t.
Proof. destruct t. simpl. by left. Qed.

Lemma box_valid h r l : box h r l → (r < length h)%nat.
Proof. intros B. rewrite <-view_length. by eapply lookup_lt_Some. Qed.

Lemma v_add_internal (t l r : vtree V) lt b v :
  vbox t = Some lt → vleft t = Some l → vright t = Some r →
  v_add t b v =
    let tree_merge_p := perimeter_of (merge_of false lt b) in
    let pushdown := 2 * (tree_merge_p - perimeter_of lt) in
    if 2 * tree_merge_p <? Z.min (v_cost pushdown b l) (v_cost pushdown b r)
    then VNode (Some (merge_of false lt b)) None (Some t) (Some (v_leaf b v))
    else if v_cost pushdown b l <? v_cost pushdown b r
    then VNode (merged_of false (vbox (v_add l b v)) (vbox r)) (vvalue t)
               (Some (v_add l b v)) (Some r)
    else VNode (merged_of false (vbox l) (vbox (v_add r b v))) (vvalue t)
               (Some l) (Some (v_add r b v)).
Proof. destruct t; simpl. by intros -> -> ->. Qed.

Lemma add_spec t :
  ∀ h b v lb, heap_ok h → proper (view h) t → box h b lb →
  ∃ t' h', AABBTree.add t b v h = Ok t' h' ∧ heap_ok h' ∧
    view h `prefix_of` view h' ∧ proper (view h') t' ∧
    (length h ≤ AABBTree.aabb t' < length h')%nat ∧
    (∀ r, r ∈ refs t' → r ∈ refs t ∨ r = b ∨ (length h ≤ r)%nat) ∧
    (b ∉ refs t → abs (view h') t' = v_add (abs (view h) t) lb v) ∧
    (siblings_differ t → siblings_differ t').
Proof.
  induction t as [a v0 l r IHl IHr] using tree_ind.
  intros h b v lb Hok Hpr Bb.
  destruct (proper_box _ _ Hpr) as [ls Bs]. simpl in Bs.
  pose proof (box_valid _ _ _ Bb) as Hb.
  destruct l as [sl|], r as [sr|]; try (simpl in Hpr; tauto).
  - (* an internal node *)
    pose proof Hpr as (_ & Hprl & Hprr). simpl in Hprl, Hprr, IHl, IHr.
    destruct (proper_box _ _ Hprl) as [ll Bl].
    destruct (proper_box _ _ Hprr) as [lr Br].
    set (self := AABBTree.mkAABBTree a v0 (Some sl) (Some sr)) in *.
    destruct (add_internal_run h self sl sr b v ls ll lr lb Hok
                eq_refl eq_refl Bs Bl Br Bb) as (h1 & Hok1 & Hp1 & E).
    cbv zeta in E. rewrite E. clear E.
    change (AABBTree.aabb self) with a.
    pose proof (view_prefix_length _ _ Hp1) as Hlen1.
    assert (b ∉ refs self →
            (merge_perimeter a b ls lb = perimeter_of (merge_of false ls lb))
            ∧ (∀ pd, child_cost pd sl ll b lb = v_cost pd lb (abs (view h) sl))
            ∧ (∀ pd, child_cost pd sr lr b lb = v_cost pd lb (abs (view h) sr))
            ∧ (b ∉ refs sl) ∧ (b ∉ refs sr)) as Hcosts.
    { simpl. rewrite not_elem_of_cons, not_elem_of_app.
      intros (Ha & Hnl & Hnr). split_and!; [| | |done|done].
      - unfold merge_perimeter. by rewrite bool_decide_eq_false_2.
      - intros pd. apply child_cost_abs; [done|].
        intros <-. apply Hnl, aabb_in_refs.
      - intros pd. apply child_cost_abs; [done|].
        intros <-. apply Hnr, aabb_in_refs. }
    pose proof (v_add_internal (abs (view h) self) (abs (view h) sl)
                  (abs (view h) sr) ls lb v
                  (lims_at_box _ _ _ Bs) eq_refl eq_refl) as Hvadd.
    cbv zeta in Hvadd.
    match goal with
    | |- context [if ?c then split_here _ _ _ else _] => destruct c eqn:Ec1
    end.
    { (* split at this node *)
      destruct (split_here_spec h1 self b v ls lb)
        as (t' & h' & E & Hok' & Hp' & Hpr' & Hroot & Hrefs & Habs & Hsib);
        [done|by eapply proper_prefix|by eapply box_prefix..|].
      exists t', h'. split_and!; [done|done|by etrans|done|lia|lia| | |done].
      - intros r0 [->|Hr]%Hrefs; [by auto|]. right. right. lia.
      - intros Hnin. destruct (Hcosts Hnin) as (Hm & Hcl & Hcr & _).
        rewrite Hvadd, <-Hm, <-Hcl, <-Hcr, Ec1, Habs.
        by rewrite (abs_view_prefix h h1). }
    match goal with
    | |- context [if ?c then descend_left _ _ _ _ _ else _] =>
        destruct c eqn:Ec2
    end.
    + (* into the left child *)
      destruct (IHl h1 b v lb)
        as (l' & h2 & E & Hok2 & Hp2 & Hpr2 & Hroot2 & Hrefs2 & Habs2 & Hsib2);
        [done|by eapply proper_prefix|by eapply box_prefix|].
      destruct (proper_box _ _ Hpr2) as [ll' Bl'].
      pose proof (box_valid _ _ _ Br) as Hsr.
      destruct (merge_ok h2 (AABBTree.aabb l') (AABBTree.aabb sr)
                  (Some ll') (Some lr))
        as (h3 & E3 & Hv3 & Hok3);
        [done|done|eapply box_prefix; [|exact Br]; by etrans|].
      rewrite bool_decide_eq_false_2 in Hv3 by lia. simpl in Hv3.
      pose proof (snoc_prefix _ _ _ Hv3) as Hp3.
      pose proof (view_prefix_length _ _ Hp2) as Hlen2.
      assert (length h3 = S (length h2)) as Hlen3.
      { rewrite <-!view_length, Hv3, length_app. simpl. lia. }
      eexists _, h3. unfold descend_left. mstep E. mstep E3.
      split; [reflexivity|]. split_and!.
      * done.
      * by do 2 (etrans; [eassumption|]).
      * simpl. split_and!.
        -- eexists. by eapply snoc_last.
        -- by eapply proper_prefix.
        -- eapply proper_prefix; [|exact Hprr]. by do 2 (etrans; [eassumption|]).
      * simpl. lia.
      * simpl. lia.
      * simpl. intros r0.
        rewrite !elem_of_cons, !elem_of_app.
        intros [->|[Hr|Hr]]; [right; right; lia| |by auto].
        apply Hrefs2 in Hr as [Hr|[->|Hr]]; [by auto|by auto|].
        right. right. lia.
      * intros Hnin. destruct (Hcosts Hnin) as (Hm & Hcl & Hcr & Hnl & _).
        rewrite Hvadd, <-Hm, <-Hcl, <-Hcr, Ec1, Ec2.
        simpl. f_equal.
        -- unfold lims_at. rewrite (snoc_last _ _ _ Hv3). simpl.
           rewrite <-(abs_view_prefix h h1 sl), <-Habs2 by done.
           by rewrite !vbox_abs, (lims_at_box _ _ _ Bl'), (lims_at_box _ _ _ Br).
        -- f_equal. rewrite (abs_view_prefix h2 h3) by done.
           rewrite Habs2 by done. by rewrite (abs_view_prefix h h1).
        -- f_equal. apply abs_view_prefix; [|done].
           by do 2 (etrans; [eassumption|]).
      * simpl. intros (_ & Hdl & Hdr). split_and!; [lia|by apply Hsib2|done].
    + (* into the right child *)
      destruct (IHr h1 b v lb)
        as (r' & h2 & E & Hok2 & Hp2 & Hpr2 & Hroot2 & Hrefs2 & Habs2 & Hsib2);
        [done|by eapply proper_prefix|by eapply box_prefix|].
      destruct (proper_box _ _ Hpr2) as [lr' Br'].
      pose proof (box_valid _ _ _ Bl) as Hsl.
      destruct (merge_ok h2 (AABBTree.aabb sl) (AABBTree.aabb r')
                  (Some ll) (Some lr'))
        as (h3 & E3 & Hv3 & Hok3);
        [done|eapply box_prefix; [|exact Bl]; by etrans|done|].
      rewrite bool_decide_eq_false_2 in Hv3 by lia. simpl in Hv3.
      pose proof (snoc_prefix _ _ _ Hv3) as Hp3.
      pose proof (view_prefix_length _ _ Hp2) as Hlen2.
      assert (length h3 = S (length h2)) as Hlen3.
      { rewrite <-!view_length, Hv3, length_app. simpl. lia. }
      eexists _, h3. unfold descend_right. mstep E. mstep E3.
      split; [reflexivity|]. split_and!.
      * done.
      * by do 2 (etrans; [eassumption|]).
      * simpl. split_and!.
        -- eexists. by eapply snoc_last.
        -- eapply proper_prefix; [|exact Hprl]. by do 2 (etrans; [eassumption|]).
        -- by eapply proper_prefix.
      * simpl. lia.
      * simpl. lia.
      * simpl. intros r0.
        rewrite !elem_of_cons, !elem_of_app.
        intros [->|[Hr|Hr]]; [right; right; lia|by auto|].
        apply Hrefs2 in Hr as [Hr|[->|Hr]]; [by auto|by auto|].
        right. right. lia.
      * intros Hnin. destruct (Hcosts Hnin) as (Hm & Hcl & Hcr & _ & Hnr).
        rewrite Hvadd, <-Hm, <-Hcl, <-Hcr, Ec1, Ec2.
        simpl. f_equal.
        -- unfold lims_at. rewrite (snoc_last _ _ _ Hv3). simpl.
           rewrite <-(abs_view_prefix h h1 sr), <-Habs2 by done.
           by rewrite !vbox_abs, (lims_at_box _ _ _ Bl), (lims_at_box _ _ _ Br').
        -- f_equal. apply abs_view_prefix; [|done].
           by do 2 (etrans; [eassumption|]).
        -- f_equal. rewrite (abs_view_prefix h2 h3) by done.
           rewrite Habs2 by done. by rewrite (abs_view_prefix h h1).
      * simpl. intros (_ & Hdl & Hdr). split_and!; [lia|done|by apply Hsib2].
  - (* a leaf *)
    set (self := AABBTree.mkAABBTree a v0 None None) in *.
    destruct (add_leaf_run h self b v ls eq_refl Bs) as (h1 & Hv1 & E).
    rewrite E. clear E.
    pose proof (snoc_prefix _ _ _ Hv1) as Hp1.
    assert (heap_ok h1) as Hok1 by (by eapply heap_ok_snoc).
    destruct (deepcopy_spec self h1 Hok1)
      as (l & h2 & E2 & Hok2 & Hp2 & Hfr & Habs & Hsib).
    { apply proper_valid. by eapply proper_prefix. }
    destruct (merge_ok h2 a b (Some ls) (Some lb))
      as (h3 & E3 & Hv3 & Hok3);
      [done|eapply box_prefix; [|exact Bs]; by etrans
      |eapply box_prefix; [|exact Bb]; by etrans|].
    pose proof (snoc_prefix _ _ _ Hv3) as Hp3.
    pose proof (view_prefix_length _ _ Hp1) as Hlen1.
    pose proof (view_prefix_length _ _ Hp2) as Hlen2.
    assert (length h3 = S (length h2)) as Hlen3.
    { rewrite <-!view_length, Hv3, length_app. simpl. lia. }
    assert (proper (view h2) l) as Hprl.
    { apply proper_abs. rewrite Habs. apply proper_abs.
      by eapply proper_prefix. }
    eexists _, h3. mstep E2. mstep E3.
    split; [reflexivity|]. split_and!.
    + done.
    + by do 3 (etrans; [eassumption|]).
    + simpl. split_and!.
      * eexists. by eapply snoc_last.
      * by eapply proper_prefix.
      * eexists. eapply box_prefix; [|exact Bb].
        by do 3 (etrans; [eassumption|]).
      * done.
    + simpl. lia.
    + simpl. lia.
    + simpl. intros r0.
      rewrite !elem_of_cons, !elem_of_app, list_elem_of_singleton.
      intros [->|[Hr| ->]]; [right; right; lia| |by auto].
      rewrite list.Forall_forall in Hfr. apply Hfr in Hr.
      right. right. lia.
    + simpl. rewrite not_elem_of_cons. intros [Hne _].
      rewrite (lims_at_box _ _ _ Bs). f_equal.
      * unfold lims_at. rewrite (snoc_last _ _ _ Hv3).
        by rewrite bool_decide_eq_false_2.
      * f_equal. rewrite (abs_view_prefix h2 h3), Habs by done.
        rewrite (abs_view_prefix h h1) by done. simpl.
        by rewrite (lims_at_box _ _ _ Bs).
      * unfold v_leaf. do 2 f_equal. apply lims_at_box.
        eapply box_prefix; [|exact Bb]. by do 3 (etrans; [eassumption|]).
    + simpl. intros _. split_and!; [|by apply Hsib|done].
      destruct l as [al ? ? ?]. simpl in *.
      apply list.Forall_cons in Hfr as [Hal _]. lia.
Qed.

End AddMain.

(** * The constructor of [AABB] *)

Lemma two_ordered_bounds_spec lims :
  two_ordered_bounds lims = true ↔ ∃ lo hi, lims = [lo; hi] ∧ lo ≤ hi.
Proof.
  split.
  - destruct lims as [|lo [|hi [|? ?]]]; simpl; try done.
    intros ?%Z.leb_le. eauto.
  - intros (lo & hi & -> & ?). simpl. by apply Z.leb_le.
Qed.

Lemma check_limits_run ls h :
  AABB.check_limits ls h =
    if forallb two_ordered_bounds ls then Ok (as_interval <$> ls) h
    else Raise AssertionError h.
Proof.
  induction ls as [|lims ls IH]; [done|]. simpl.
  destruct lims as [|lo [|hi [|? ?]]]; simpl; try done.
  destruct (lo <=? hi); simpl; [|done].
  unfold mbind, M_bind, bind. rewrite IH.
  by destruct (forallb two_ordered_bounds ls).
Qed.

(** The stores that the program can reach satisfy [heap_ok]: the store
    before any call does, and the constructor keeps it so ([AABB.merge] and
    [AABBTree.add] keep it by [merge_ok] and [add_spec]). *)
Lemma initial_heap_ok : heap_ok initial_heap.
Proof. by repeat constructor. Qed.

Lemma init_box ls h :
  heap_ok h → forallb two_ordered_bounds ls = true →
  ∃ h', AABB.__init__ (Some ls) h = Ok (length h) h' ∧ heap_ok h' ∧
        view h `prefix_of` view h' ∧ box h' (length h) (as_interval <$> ls).
Proof.
  intros Hok Hls. exists (h ++ [mkAABB (Some (as_interval <$> ls)) 0]).
  split_and!.
  - unfold AABB.__init__, mbind, M_bind, bind.
    by rewrite check_limits_run, Hls.
  - apply heap_ok_app; [done|]. simpl.
    induction ls as [|lims ls IH]; [constructor|].
    simpl in Hls. apply andb_true_iff in Hls as [Hl Hls].
    constructor; [|by apply IH].
    destruct lims as [|lo [|hi [|? ?]]]; try done.
    unfold ivalid. simpl in *. by apply Z.leb_le.
  - rewrite view_app. by apply prefix_app_r.
  - unfold box. rewrite view_app, lookup_app_r, view_length, Nat.sub_diag
      by (by rewrite view_length). done.
Qed.

(** C5.  Constructing a box from a list of intervals fails with the
    assertion error (the specification's [InvalidIntervalError]) as soon as
    one interval does not have exactly two bounds or has its lower bound
    above its upper bound, and then the store is unchanged: no box object
    exists.  When every interval has two bounds [lo <= hi] the construction
    returns a new box with these limits, and with no intervals supplied it
    returns a new box without limits, the empty box. *)
Theorem AABB_init_validates (ls : list (list Z)) (h : heap) :
  (∀ lims, two_ordered_bounds lims = true ↔ ∃ lo hi, lims = [lo; hi] ∧ lo ≤ hi)
  ∧ AABB.__init__ (Some ls) h =
      (if forallb two_ordered_bounds ls
       then Ok (length h) (h ++ [mkAABB (Some (as_interval <$> ls)) 0])
       else Raise AssertionError h)
  ∧ AABB.__init__ None h = Ok (length h) (h ++ [mkAABB None 0]).
Proof.
  split; [apply two_ordered_bounds_spec|]. split; [|done].
  unfold AABB.__init__, mbind, M_bind, bind. rewrite check_limits_run.
  by destruct (forallb two_ordered_bounds ls).
Qed.

(** * Overlap of two boxes *)

Lemma overlap1_swap p q : overlap1 (p, q) = overlap1 (q, p).
Proof.
  unfold overlap1. simpl. destruct p as [lo1 hi1], q as [lo2 hi2]. simpl.
  rewrite andb_comm. f_equal.
  - rewrite Z.geb_leb. done.
  - rewrite Z.geb_leb. done.
Qed.

Lemma overlaps_zip_swap l1 l2 :
  forallb overlap1 (zip l1 l2) = forallb overlap1 (zip l2 l1).
Proof.
  revert l2. induction l1 as [|p l1 IH]; intros [|q l2]; simpl; try done.
  by rewrite overlap1_swap, IH.
Qed.

Lemma overlaps_zip_spec l1 l2 :
  forallb overlap1 (zip l1 l2) = true ↔ intersect_everywhere l1 l2.
Proof.
  unfold intersect_everywhere. revert l2.
  induction l1 as [|[lo1 hi1] l1 IH]; intros [|[lo2 hi2] l2]; simpl;
    try (split; [by intros _ ? ? ? ? ? ? ?|done]).
  rewrite andb_true_iff, IH. unfold overlap1. simpl.
  rewrite andb_true_iff, Z.geb_leb, !Z.leb_le. split.
  - intros [[? ?] Hrest] [|i] ? ? ? ?; simpl.
    + intros [= <- <-] [= <- <-]. lia.
    + apply Hrest.
  - intros H. split.
    + specialize (H 0%nat lo1 hi1 lo2 hi2 eq_refl eq_refl). lia.
    + intros i. apply (H (S i)).
Qed.

(** X19.  Two distinct box objects: [overlaps] is the closed-interval test
    in every dimension, and it is symmetric. *)
Theorem overlaps_distinct_objects h a b la lb :
  box h a la → box h b lb → a ≠ b →
  ∃ r h1 h2,
    AABB.overlaps a b h = Ok r h1 ∧ AABB.overlaps b a h1 = Ok r h2 ∧
    (r = true ↔ intersect_everywhere la lb).
Proof.
  intros Ba Bb Hne.
  destruct (overlaps_spec _ _ _ _ _ Ba Bb) as (h1 & E1 & Hv1).
  destruct (overlaps_spec h1 b a lb la) as (h2 & E2 & Hv2);
    [by eapply box_view..|].
  rewrite bool_decide_eq_false_2 in E1 by done.
  rewrite bool_decide_eq_false_2 in E2 by done.
  unfold overlaps_of, zipped in E1, E2.
  exists (forallb overlap1 (zip la lb)), h1, h2. split_and!; [done| |].
  - by rewrite overlaps_zip_swap.
  - apply overlaps_zip_spec.
Qed.

Lemma overlaps_distinct_objects_witness :
  ∃ r h1 h2,
    AABB.overlaps example_b example_c example_heap = Ok r h1 ∧
    AABB.overlaps example_c example_b h1 = Ok r h2 ∧
    (r = true ↔ intersect_everywhere [(0, 1); (2, 3)] [(2, 4); (0, 5)]).
Proof.
  apply (overlaps_distinct_objects example_heap example_b example_c);
    [reflexivity|reflexivity|unfold example_b, example_c; lia].
Defined.

(** C6.  A box compared with itself: [a.overlaps(a)] pairs consecutive
    intervals of [a], because both iterators of [zip(self, aabb)] are the
    object [a] and share its cursor.  For [a = AABB([(0, 1), (2, 3)])] it
    returns [False], although the closed-interval test holds in every
    dimension. *)
Theorem overlaps_same_object :
  (∃ h', AABB.overlaps example_b example_b example_heap = Ok false h') ∧
  box example_heap example_b [(0, 1); (2, 3)] ∧
  intersect_everywhere [(0, 1); (2, 3)] [(0, 1); (2, 3)].
Proof.
  split; [by eexists|]. split; [done|].
  apply overlaps_zip_spec. reflexivity.
Qed.

(** * Merging with the empty box *)

Lemma merged_of_None_r same o : merged_of same o None = o.
Proof. by destruct o. Qed.

Lemma merged_of_None_l same o : merged_of same None o = o.
Proof. by destruct o. Qed.

(** C7.  The empty box is an identity for [merge]: for every box [a]
    (empty or not) and every empty box [e], [merge(a, e)] and [merge(e, a)]
    are new objects, different from both operands, that compare equal to
    [a]; with [a] empty this is [merge(empty, empty) == empty]. *)
Theorem merge_empty_identity h a e oa :
  heap_ok h → view h !! a = Some oa → unset h e →
  ∃ m1 h1 h1' m2 h2 h2',
    AABB.merge a e h = Ok m1 h1 ∧ AABB.__eq__ m1 a h1 = Ok true h1' ∧
    AABB.merge e a h = Ok m2 h2 ∧ AABB.__eq__ m2 a h2 = Ok true h2' ∧
    h !! m1 = None ∧ h !! m2 = None ∧ m1 ≠ a ∧ m1 ≠ e ∧ m2 ≠ a ∧ m2 ≠ e ∧
    view h1 !! m1 = Some oa ∧ view h2 !! m2 = Some oa.
Proof.
  intros Hok Va Ve.
  pose proof (lookup_lt_Some _ _ _ Va) as Hla.
  pose proof (lookup_lt_Some _ _ _ Ve) as Hle.
  rewrite view_length in Hla, Hle.
  destruct (merge_ok _ _ _ _ _ Hok Va Ve) as (h1 & E1 & Hv1 & _).
  destruct (merge_ok _ _ _ _ _ Hok Ve Va) as (h2 & E2 & Hv2 & _).
  rewrite merged_of_None_r in Hv1. rewrite merged_of_None_l in Hv2.
  pose proof (snoc_last _ _ _ Hv1) as Hm1.
  pose proof (snoc_last _ _ _ Hv2) as Hm2.
  destruct (eq_spec h1 (length h) a oa oa) as (h1' & Q1 & _);
    [done|eapply view_prefix_lookup; [by eapply snoc_prefix|done]|].
  destruct (eq_spec h2 (length h) a oa oa) as (h2' & Q2 & _);
    [done|eapply view_prefix_lookup; [by eapply snoc_prefix|done]|].
  rewrite bool_decide_eq_true_2 in Q1 by done.
  rewrite bool_decide_eq_true_2 in Q2 by done.
  exists (length h), h1, h1', (length h), h2, h2'.
  split_and!; try done; try lia; by apply lookup_ge_None_2.
Qed.

Lemma merge_empty_identity_witness :
  ∃ m1 h1 h1' m2 h2 h2',
    AABB.merge example_b example_empty example_heap = Ok m1 h1 ∧
    AABB.__eq__ m1 example_b h1 = Ok true h1' ∧
    AABB.merge example_empty example_b example_heap = Ok m2 h2 ∧
    AABB.__eq__ m2 example_b h2 = Ok true h2' ∧
    example_heap !! m1 = None ∧ example_heap !! m2 = None ∧
    m1 ≠ example_b ∧ m1 ≠ example_empty ∧
    m2 ≠ example_b ∧ m2 ≠ example_empty ∧
    view h1 !! m1 = Some (Some [(0, 1); (2, 3)]) ∧
    view h2 !! m2 = Some (Some [(0, 1); (2, 3)]).
Proof.
  apply (merge_empty_identity example_heap example_b example_empty);
    [|reflexivity|reflexivity].
  unfold heap_ok, example_heap, initial_heap. simpl.
  repeat constructor; unfold ivalid; simpl; lia.
Defined.

(** * Queries on the empty tree *)

Lemma iter_any h r o :
  h !! r = Some o →
  AABB.__iter__ r h = Ok r (<[r := mkAABB (limits o) 0]> h).
Proof.
  intros E. unfold AABB.__iter__. mstep (load_Ok _ _ _ E).
  by mstep (store_Ok _ _ _ (mkAABB (limits o) 0) E).
Qed.

Lemma overlaps_unset h x q oq :
  unset h x → view h !! q = Some oq →
  ∃ h', AABB.overlaps x q h = Raise TypeError h'.
Proof.
  intros [i Ex]%unset_lookup [j Eq]%view_lookup_Some.
  unfold AABB.overlaps, AABB.rounds. mstep (load_Ok _ _ _ Ex). simpl.
  mstep (iter_any _ _ _ Ex). simpl.
  set (h1 := <[x := mkAABB None 0]> h).
  assert (∃ o, h1 !! q = Some o) as [o Eq1].
  { apply lookup_lt_is_Some_2. unfold h1. rewrite length_insert.
    by eapply lookup_lt_Some. }
  mstep (iter_any _ _ _ Eq1).
  set (h2 := <[q := mkAABB (limits o) 0]> h1).
  assert (∃ k, h2 !! x = Some (mkAABB None k)) as [k Ex2].
  { unfold h2. destruct (decide (q = x)) as [->|Hne].
    - exists 0%nat. rewrite list_lookup_insert_eq by (by eapply lookup_lt_Some).
      f_equal. f_equal. unfold h1 in Eq1.
      rewrite list_lookup_insert_eq in Eq1 by (by eapply lookup_lt_Some).
      by injection Eq1 as <-.
    - exists 0%nat. rewrite list_lookup_insert_ne by done.
      unfold h1. by rewrite list_lookup_insert_eq by (by eapply lookup_lt_Some). }
  exists h2. simpl. unfold AABB.zip_next, AABB.__next__.
  rewrite !bind_assoc. mstep (load_Ok _ _ _ Ex2).
  rewrite !bind_assoc. by rewrite (bind_Raise _ _ _ _ _ (len_Raise _ _ _ Ex2)).
Qed.

(** C8.  On a freshly constructed tree (one node, the box without limits,
    no children) both queries raise [TypeError]: the root is a leaf, and
    the overlap test of its box asks for the length of [None].  Neither
    [False] nor an empty list is returned. *)
Theorem queries_on_empty_tree_raise {V} h (t : AABBTree.t V) q oq :
  uninitialized (view h) t → view h !! q = Some oq →
  ∃ h1 h2,
    AABBTree.does_overlap t q h = Raise TypeError h1 ∧
    AABBTree.overlap_values t q h = Raise TypeError h2.
Proof.
  intros (Ht & El & Er) Hq.
  destruct (overlaps_unset h (AABBTree.aabb t) q oq Ht Hq) as (h' & E).
  exists h', h'. destruct t as [a v l r]. simpl in *. subst l r.
  unfold AABBTree.is_leaf. simpl. split; [done|].
  by rewrite (bind_Raise _ _ _ _ _ E).
Qed.

Lemma queries_on_empty_tree_raise_witness :
  ∃ h1 h2,
    AABBTree.does_overlap (empty_tree (V:=nat)) example_b example_heap
      = Raise TypeError h1 ∧
    AABBTree.overlap_values (empty_tree (V:=nat)) example_b example_heap
      = Raise TypeError h2.
Proof.
  apply (queries_on_empty_tree_raise example_heap empty_tree example_b
           (Some [(0, 1); (2, 3)])); [|reflexivity].
  unfold uninitialized. simpl. split; [reflexivity|]. split; reflexivity.
Defined.

(** * Inserting the empty box first *)

(** C9.  When the first box added to an empty tree is itself an empty box,
    the root stores it with the value, the test [self.aabb == AABB()] still
    succeeds on the root, and the next [add] overwrites box and value in
    place: the resulting tree is the single leaf of the second item, and
    the first value is gone. *)
Theorem add_after_empty_box_overwrites {V} h (t : AABBTree.t V) e v b2 v2 o2 :
  uninitialized (view h) t → unset h e → view h !! b2 = Some o2 →
  ∃ h1 h1' h2,
    AABBTree.add t e v h = Ok (AABBTree.mkAABBTree e v None None) h1 ∧
    (empty ← AABB.__init__ None; AABB.__eq__ e empty) h1 = Ok true h1' ∧
    AABBTree.add (AABBTree.mkAABBTree e v None None) b2 v2 h1
      = Ok (AABBTree.mkAABBTree b2 v2 None None) h2.
Proof.
  intros (Ht & El & Er) He Hb.
  destruct (add_uninitialized h t e v Ht) as (h1 & E1 & Hv1).
  rewrite El, Er in E1.
  assert (view h1 !! e = Some None) as He1.
  { eapply view_prefix_lookup; [by eapply snoc_prefix|done]. }
  destruct (uninitialized_test h1 e None He1) as (h1' & _ & Q).
  destruct (add_uninitialized h1 (AABBTree.mkAABBTree e v None None) b2 v2 He1)
    as (h2 & E2 & _).
  exists h1, h1', h2. split_and!; [done| |done].
  etrans; [|exact (Q bool (λ un, mret un))].
  unfold mbind, M_bind, bind.
  destruct (AABB.__init__ None h1) as [a h0| |]; [|done..].
  by destruct (AABB.__eq__ e a h0).
Qed.

Lemma add_after_empty_box_overwrites_witness :
  ∃ h1 h1' h2,
    AABBTree.add (empty_tree (V:=nat)) example_empty (Some 7%nat) example_heap
      = Ok (AABBTree.mkAABBTree example_empty (Some 7%nat) None None) h1 ∧
    (empty ← AABB.__init__ None; AABB.__eq__ example_empty empty) h1
      = Ok true h1' ∧
    AABBTree.add (AABBTree.mkAABBTree example_empty (Some 7%nat) None None)
                 example_b (Some 8%nat) h1
      = Ok (AABBTree.mkAABBTree example_b (Some 8%nat) None None) h2.
Proof.
  apply (add_after_empty_box_overwrites example_heap empty_tree example_empty
           (Some 7%nat) example_b (Some 8%nat) (Some [(0, 1); (2, 3)]));
    [|reflexivity|reflexivity].
  unfold uninitialized. simpl. split; [reflexivity|]. split; reflexivity.
Defined.

(** * Equality of trees *)

Section TreeEq.
Context {V : Type}.

Lemma same_boxes_is_leaf L (t1 t2 : AABBTree.t V) :
  same_boxes L t1 t2 → AABBTree.is_leaf t1 = AABBTree.is_leaf t2.
Proof.
  destruct t1 as [a1 v1 [l1|] [r1|]], t2 as [a2 v2 [l2|] [r2|]];
    simpl; unfold AABBTree.is_leaf; simpl; tauto.
Qed.

Lemma tree_eq_same_boxes (t1 : AABBTree.t V) :
  ∀ t2 h, same_boxes (view h) t1 t2 →
  ∃ h', AABBTree.__eq__ t1 (Some t2) h = Ok true h' ∧ view h' = view h.
Proof.
  induction t1 as [a1 v1 l1 r1 IHl IHr] using tree_ind.
  intros t2 h Hs. pose proof (same_boxes_is_leaf _ _ _ Hs) as Hleaf.
  destruct t2 as [a2 v2 l2 r2]. simpl in Hs.
  destruct Hs as ((o & Ha1 & Ha2) & Hl & Hr).
  destruct (ne_spec _ _ _ _ _ Ha1 Ha2) as (h1 & E1 & Hv1).
  rewrite bool_decide_eq_true_2 in E1 by done.
  simpl. mstep E1. simpl. rewrite Hleaf, eqb_reflx. simpl.
  assert (∃ h2, match l1 with
                | Some l => AABBTree.__eq__ l l2
                | None => mret (match l2 with None => true | Some _ => false end)
                end h1 = Ok true h2 ∧ view h2 = view h) as (h2 & E2 & Hv2).
  { destruct l1 as [l1|], l2 as [l2|]; try done; simpl in *.
    - destruct (IHl l2 h1) as (h2 & E2 & Hv2); [by rewrite Hv1|].
      exists h2. split; [done|congruence].
    - by exists h1. }
  mstep E2.
  destruct r1 as [r1|], r2 as [r2|]; try done; simpl in *.
  - destruct (IHr r2 h2) as (h3 & E3 & Hv3); [by rewrite Hv2|].
    exists h3. split; [done|congruence].
  - by exists h2.
Qed.
End TreeEq.

(** C10.  Equality of trees does not look at values: two trees whose boxes
    and shape agree node by node compare equal, whatever their values.  The
    comparison reads [aabb], [is_leaf] and the two subtrees only. *)
Theorem tree_eq_ignores_values {V} h (t1 t2 : AABBTree.t V) :
  same_boxes (view h) t1 t2 →
  ∃ h', AABBTree.__eq__ t1 (Some t2) h = Ok true h'.
Proof.
  intros Hs. destruct (tree_eq_same_boxes t1 t2 h Hs) as (h' & E & _). eauto.
Qed.

Lemma tree_eq_ignores_values_witness :
  AABBTree.value example_leaf_x ≠ AABBTree.value example_leaf_y ∧
  ∃ h', AABBTree.__eq__ example_leaf_x (Some example_leaf_y) example_heap
          = Ok true h'.
Proof.
  split; [by intros [=]|].
  apply (tree_eq_ignores_values example_heap example_leaf_x example_leaf_y).
  simpl. split; [|split; exact I]. eexists. split; reflexivity.
Defined.

(** * The insertion rule at an internal node *)

(** C3.  At an internal node whose box, children's boxes and incoming box
    [b] have limits, [add] computes
    [direct_cost = 2 * perimeter(merge(self.box, b))],
    [pushdown = 2 * (perimeter(merge(self.box, b)) - perimeter(self.box))]
    and, for each child [c], [perimeter(merge(c.box, b)) + pushdown], less
    [perimeter(c.box)] exactly when [c] is not a leaf.  It splits the node
    (a deep copy of the node as left child, a new leaf with [b] and the
    value as right child, no value at the node) iff
    [direct_cost < min(cost_left, cost_right)]; otherwise it descends into
    the left child iff [cost_left < cost_right], and into the right child
    otherwise, so a tie goes right.  In each case the node's box is merged
    again from the boxes of its two children. *)
Theorem add_internal_decision {V} h (self sl sr : AABBTree.t V) b v ls ll lr lb :
  heap_ok h →
  AABBTree.left self = Some sl → AABBTree.right self = Some sr →
  box h (AABBTree.aabb self) ls → box h (AABBTree.aabb sl) ll →
  box h (AABBTree.aabb sr) lr → box h b lb →
  let tree_merge_p := merge_perimeter (AABBTree.aabb self) b ls lb in
  let direct_cost := 2 * tree_merge_p in
  let pushdown := 2 * (tree_merge_p - perimeter_of ls) in
  let cost_left := child_cost pushdown sl ll b lb in
  let cost_right := child_cost pushdown sr lr b lb in
  ∃ h1, heap_ok h1 ∧ view h `prefix_of` view h1 ∧
    AABBTree.add self b v h =
      (if direct_cost <? Z.min cost_left cost_right then split_here self b v
       else if cost_left <? cost_right then descend_left self sl sr b v
       else descend_right self sl sr b v) h1.
Proof. apply add_internal_run. Qed.

Lemma add_internal_decision_witness :
  ∃ h1, heap_ok h1 ∧ view example_heap2 `prefix_of` view h1 ∧
    AABBTree.add example_node example_d (Some 3%nat) example_heap2 =
      descend_left example_node example_left example_right
                   example_d (Some 3%nat) h1.
Proof.
  apply (add_internal_decision example_heap2 example_node example_left
           example_right example_d (Some 3%nat)
           [(0, 6); (0, 6)] [(0, 1); (0, 1)] [(5, 6); (5, 6)] [(0, 1); (1, 2)]);
    try reflexivity.
  unfold heap_ok, example_heap2, initial_heap. simpl.
  repeat constructor; unfold ivalid; simpl; lia.
Defined.

(** * The two queries agree *)

Section AddAll.
Context {V : Type}.

Lemma add_first h (t : AABBTree.t V) b v lb :
  heap_ok h → uninitialized (view h) t → box h b lb →
  ∃ h1, AABBTree.add t b v h = Ok (AABBTree.mkAABBTree b v None None) h1 ∧
        heap_ok h1 ∧ view h `prefix_of` view h1 ∧
        view h1 = view h ++ [None] ∧
        proper (view h1) (AABBTree.mkAABBTree b v None None).
Proof.
  intros Hok (Ht & El & Er) Bb.
  destruct (add_uninitialized h t b v Ht) as (h1 & E1 & Hv1).
  rewrite El, Er in E1. exists h1.
  pose proof (snoc_prefix _ _ _ Hv1) as Hp. split_and!; try done.
  - by eapply heap_ok_snoc.
  - simpl. split; [|done]. eexists. by eapply box_prefix.
Qed.

Lemma add_all_proper (items : list (ref * option V)) :
  ∀ t h, heap_ok h → proper (view h) t →
  Forall (λ it, ∃ l, box h it.1 l) items →
  ∃ t' h', add_all t items h = Ok t' h' ∧ heap_ok h' ∧
    view h `prefix_of` view h' ∧ proper (view h') t'.
Proof.
  induction items as [|[b v] items IH]; intros t h Hok Hpr Hit.
  - by exists t, h.
  - apply list.Forall_cons in Hit as [[lb Bb] Hit]. simpl in Bb.
    destruct (add_spec t h b v lb Hok Hpr Bb)
      as (t1 & h1 & E1 & Hok1 & Hp1 & Hpr1 & _).
    destruct (IH t1 h1 Hok1 Hpr1) as (t' & h' & E & Hok' & Hp' & Hpr').
    { eapply list.Forall_impl; [exact Hit|]. intros it [l Bl].
      exists l. by eapply box_prefix. }
    exists t', h'. simpl. mstep E1. split_and!; try done. by etrans.
Qed.

(** A tree built by at least one insertion into an empty tree is proper,
    whether or not box objects were passed more than once. *)
Lemma add_all_from_empty (items : list (ref * option V)) t h :
  heap_ok h → uninitialized (view h) t → items ≠ [] →
  Forall (λ it, ∃ l, box h it.1 l) items →
  ∃ t' h', add_all t items h = Ok t' h' ∧ heap_ok h' ∧
    view h `prefix_of` view h' ∧ proper (view h') t'.
Proof.
  intros Hok Ht Hne Hit. destruct items as [|[b v] items]; [done|].
  apply list.Forall_cons in Hit as [[lb Bb] Hit]. simpl in Bb.
  destruct (add_first h t b v lb Hok Ht Bb) as (h1 & E1 & Hok1 & Hp1 & _ & Hpr1).
  destruct (add_all_proper items _ h1 Hok1 Hpr1) as (t' & h' & E & Hok' & Hp' & Hpr').
  { eapply list.Forall_impl; [exact Hit|]. intros it [l Bl].
    exists l. by eapply box_prefix. }
  exists t', h'. simpl. mstep E1. split_and!; try done. by etrans.
Qed.
End AddAll.

(** C4.  On a tree built by one or more insertions of boxes with limits
    into an empty tree, and for a query box with limits, [does_overlap]
    returns [True] exactly when [overlap_values] returns a non-empty list.
    (No assumption on the dimensions, nor on the box objects being
    distinct, is needed.) *)
Theorem does_overlap_iff_overlap_values {V} h (t : AABBTree.t V) items q lq :
  heap_ok h → uninitialized (view h) t → items ≠ [] →
  Forall (λ it, ∃ l, box h it.1 l) items → box h q lq →
  ∃ t' h1 found h2 values h3,
    add_all t items h = Ok t' h1 ∧
    AABBTree.does_overlap t' q h1 = Ok found h2 ∧
    AABBTree.overlap_values t' q h2 = Ok values h3 ∧
    (found = true ↔ values ≠ []).
Proof.
  intros Hok Ht Hne Hit Bq.
  destruct (add_all_from_empty items t h Hok Ht Hne Hit)
    as (t' & h1 & E & Hok1 & Hp1 & Hpr1).
  destruct (does_overlap_spec h1 t' q lq Hpr1) as (h2 & E2 & Hv2);
    [by eapply box_prefix|].
  destruct (overlap_values_spec h2 t' q lq) as (h3 & E3 & Hv3);
    [by rewrite Hv2|eapply box_view; [done|]; by eapply box_prefix|].
  rewrite Hv2 in E3.
  eexists t', h1, _, h2, _, h3. split_and!; [done..|].
  rewrite does_overlap_of_values, negb_true_iff, bool_decide_eq_false. done.
Qed.

Lemma does_overlap_iff_overlap_values_witness :
  ∃ t' h1 found h2 values h3,
    add_all (empty_tree (V:=nat))
            [(example_b, Some 1%nat); (example_c, Some 2%nat);
             (example_b, Some 3%nat)] example_heap = Ok t' h1 ∧
    AABBTree.does_overlap t' example_c h1 = Ok found h2 ∧
    AABBTree.overlap_values t' example_c h2 = Ok values h3 ∧
    (found = true ↔ values ≠ []).
Proof.
  apply (does_overlap_iff_overlap_values example_heap empty_tree
           [(example_b, Some 1%nat); (example_c, Some 2%nat);
            (example_b, Some 3%nat)] example_c [(2, 4); (0, 5)]).
  - unfold heap_ok, example_heap, initial_heap. simpl.
    repeat constructor; unfold ivalid; simpl; lia.
  - unfold uninitialized. simpl. split; [reflexivity|]. split; reflexivity.
  - discriminate.
  - repeat constructor; simpl; eexists; reflexivity.
  - reflexivity.
Defined.

(** * Trees by value: tightness and the overlap query *)

Section ValueProofs.
Context {V : Type}.
Implicit Types (t : vtree V).














End ValueProofs.

(** * Trees built from distinct box objects *)

Section DistinctObjects.
Context {V : Type}.
Implicit Types (t : AABBTree.t V) (items : list (ref * option V))
               (vitems : list (list interval * option V)).





End DistinctObjects.

(** * The tightness invariant *)



(** C2.  Adding the same box object twice breaks the invariant.  After
    [tree.add(b, 1); tree.add(b, 2)] with [b = AABB([(0, 1), (2, 3)])] the
    root is an internal node whose box has limits [[(0, 3)]], while the
    merge of the boxes of its children has limits [[(0, 1), (2, 3)]]: the
    split of the leaf computes [AABB.merge(self.aabb, aabb)] on one and the
    same object, whose iterator [zip] advances twice per round.  The check
    [n.aabb == AABB.merge(n.left.aabb, n.right.aabb)] returns [False] at
    the root. *)
Theorem add_same_object_twice_not_tight :
  ∃ t h1 h2,
    add_all (empty_tree (V:=nat))
            [(example_b, Some 1%nat); (example_b, Some 2%nat)] example_heap
      = Ok t h1 ∧
    AABBTree.is_leaf t = false ∧
    view h1 !! AABBTree.aabb t = Some (Some [(0, 3)]) ∧
    (AABBTree.aabb <$> AABBTree.left t) ≫= (view h1 !!.)
      = Some (Some [(0, 1); (2, 3)]) ∧
    (AABBTree.aabb <$> AABBTree.right t) ≫= (view h1 !!.)
      = Some (Some [(0, 1); (2, 3)]) ∧
    tight t h1 = Ok false h2.
Proof. do 3 eexists. split; [reflexivity|]. by split_and!. Qed.

(** * The overlap query *)



(** The test that [overlapping] applies is the closed-interval test in
    every dimension. *)
Lemma overlaps_of_distinct_spec l q :
  overlaps_of false l q = true ↔ intersect_everywhere l q.
Proof. apply overlaps_zip_spec. Qed.

(** C1.  A query with a box object that the tree holds misses that item.
    After [tree.add(b, 1)] with [b = AABB([(0, 1), (2, 3)])],
    [tree.overlap_values(b)] returns the empty list although [b] overlaps
    itself: the leaf test [self.aabb.overlaps(aabb)] runs [zip] on one and
    the same object and compares the first interval of [b] with its
    second. *)
Theorem overlap_values_misses_same_object :
  ∃ t h1 h2,
    AABBTree.add (empty_tree (V:=nat)) example_b (Some 1%nat) example_heap
      = Ok t h1 ∧
    AABBTree.overlap_values t example_b h1 = Ok [] h2 ∧
    box h1 example_b [(0, 1); (2, 3)] ∧
    overlapping [([(0, 1); (2, 3)], Some 1%nat)] [(0, 1); (2, 3)]
      = [Some 1%nat].
Proof. do 3 eexists. split; [reflexivity|]. by split_and!. Qed.

(** * Further properties of [AABB] *)

(** X1.  [a == b] on two box objects never raises: it returns [True]
    exactly when both boxes are empty or both have the same list of
    intervals, it changes the limits of no object, and [a != b] returns
    the opposite. *)
Theorem AABB_eq_decides_limits h r1 r2 o1 o2 :
  view h !! r1 = Some o1 → view h !! r2 = Some o2 →
  ∃ b h1 h2,
    AABB.__eq__ r1 r2 h = Ok b h1 ∧ (b = true ↔ o1 = o2) ∧
    view h1 = view h ∧ AABB.__ne__ r1 r2 h = Ok (negb b) h2.
Proof.
  intros V1 V2.
  destruct (eq_spec _ _ _ _ _ V1 V2) as (h1 & E1 & Hv1).
  destruct (ne_spec _ _ _ _ _ V1 V2) as (h2 & E2 & Hv2).
  exists (bool_decide (o1 = o2)), h1, h2.
  split_and!; [done|apply bool_decide_eq_true|done|done].
Qed.

Lemma AABB_eq_decides_limits_witness :
  ∃ b h1 h2,
    AABB.__eq__ example_b example_c example_heap = Ok b h1 ∧
    (b = true ↔ Some [(0, 1); (2, 3)] = Some [(2, 4); (0, 5)]) ∧
    view h1 = view example_heap ∧
    AABB.__ne__ example_b example_c example_heap = Ok (negb b) h2.
Proof.
  apply (AABB_eq_decides_limits example_heap example_b example_c);
    reflexivity.
Defined.

(** ** The perimeter *)

Lemma p_edge_loop (side_lens : list Z) i :
  ∀ rest k p, drop k side_lens = rest →
  foldl (λ p j, if decide (j ≠ i)
                then p * default 0 (side_lens !! j) else p)
        p (seq k (length rest))
  = product_skipping i k p rest.
Proof.
  induction rest as [|x rest IH]; intros k p Hd; [done|]. simpl.
  assert (side_lens !! k = Some x) as ->.
  { rewrite <-(Nat.add_0_r k), <-lookup_drop, Hd. done. }
  apply IH. erewrite drop_S in Hd; [by injection Hd|].
  rewrite <-(Nat.add_0_r k), <-lookup_drop, Hd. done.
Qed.

Lemma product_skipping_spec i rest :
  ∀ k p, product_skipping i k p rest
         = if decide (k ≤ i)%nat then p * product (delete (i - k)%nat rest)
           else p * product rest.
Proof.
  induction rest as [|x rest IH]; intros k p; simpl.
  { case_decide; lia. }
  rewrite IH. destruct (decide (k = i)) as [->|Hne].
  - rewrite decide_False by lia. rewrite decide_False by lia.
    rewrite decide_True by lia. by rewrite Nat.sub_diag.
  - rewrite (decide_True (P := k ≠ i)) by done.
    destruct (decide (S k ≤ i)%nat).
    + rewrite decide_True by lia.
      replace (i - k)%nat with (S (i - S k)) by lia. simpl.
      unfold product. simpl. lia.
    + rewrite decide_False by lia. unfold product. simpl. lia.
Qed.

Lemma p_edge_product side_lens i :
  AABB.p_edge side_lens i = product (delete i side_lens).
Proof.
  unfold AABB.p_edge. rewrite (p_edge_loop side_lens i side_lens 0 1) by done.
  rewrite product_skipping_spec. rewrite decide_True by lia.
  rewrite Nat.sub_0_r. apply Z.mul_1_l.
Qed.

Lemma foldl_add_sum (g : nat → Z) (l : list nat) acc :
  foldl (λ perim i, perim + g i) acc l = acc + foldr Z.add 0 (g <$> l).
Proof.
  revert acc. induction l as [|i l IH]; intros acc; [simpl; lia|].
  rewrite fmap_cons. cbn [foldl foldr]. rewrite IH.
  generalize (foldr Z.add 0 (g <$> l)). intros. lia.
Qed.

Lemma perim_sum_products side_lens :
  AABB.perim_sum side_lens = sum_of_products side_lens.
Proof.
  unfold AABB.perim_sum, sum_of_products.
  rewrite (foldl_add_sum (AABB.p_edge side_lens)), Z.add_0_l. f_equal.
  apply list_fmap_ext. intros ? i _. apply p_edge_product.
Qed.

(** X2.  [perimeter] of a box with limits is 0 in one dimension and twice
    the sum, over the dimensions, of the product of the other side lengths
    otherwise (the formula of the docstring); no limits are changed. *)
Theorem perimeter_formula h r l :
  box h r l →
  ∃ h', AABB.perimeter r h
          = Ok (if decide (length l = 1%nat) then 0
                else 2 * sum_of_products (side_len <$> l)) h'
        ∧ view h' = view h.
Proof.
  intros B. destruct (perimeter_spec _ _ _ B) as (h' & E & Hv).
  exists h'. split; [|done]. rewrite E. f_equal. unfold perimeter_of.
  destruct (Nat.eqb_spec (length l) 1); case_decide; try done.
  by rewrite perim_sum_products.
Qed.

Lemma perimeter_formula_witness :
  ∃ h', AABB.perimeter example_c example_heap
          = Ok (if decide (length [(2, 4); (0, 5)] = 1%nat) then 0
                else 2 * sum_of_products (side_len <$> [(2, 4); (0, 5)])) h'
        ∧ view h' = view example_heap.
Proof. apply (perimeter_formula example_heap example_c). reflexivity. Defined.

(** X3.  In low dimensions: 0 for a box with no interval or one interval,
    [2 (l1 + l2)] in two dimensions and [2 (l1 l2 + l2 l3 + l1 l3)] in
    three, where [l_i = hi_i - lo_i]. *)
Theorem perimeter_low_dimensions h r :
  (box h r [] → ∃ h', AABB.perimeter r h = Ok 0 h') ∧
  (∀ i1, box h r [i1] → ∃ h', AABB.perimeter r h = Ok 0 h') ∧
  (∀ i1 i2, box h r [i1; i2] →
     ∃ h', AABB.perimeter r h = Ok (2 * (side_len i1 + side_len i2)) h') ∧
  (∀ i1 i2 i3, box h r [i1; i2; i3] →
     ∃ h', AABB.perimeter r h
             = Ok (2 * (side_len i1 * side_len i2 + side_len i2 * side_len i3
                        + side_len i1 * side_len i3)) h').
Proof.
  split_and!.
  - intros B. destruct (perimeter_spec _ _ _ B) as (h' & E & _). by exists h'.
  - intros i1 B. destruct (perimeter_spec _ _ _ B) as (h' & E & _). by exists h'.
  - intros i1 i2 B. destruct (perimeter_spec _ _ _ B) as (h' & E & _).
    exists h'. rewrite E. f_equal. unfold perimeter_of. simpl.
    unfold AABB.perim_sum, AABB.p_edge. simpl. lia.
  - intros i1 i2 i3 B. destruct (perimeter_spec _ _ _ B) as (h' & E & _).
    exists h'. rewrite E. f_equal. unfold perimeter_of. simpl.
    unfold AABB.perim_sum, AABB.p_edge. simpl. lia.
Qed.

Lemma perimeter_low_dimensions_witness :
  ∃ h', AABB.perimeter example_c example_heap
          = Ok (2 * (side_len (2, 4) + side_len (0, 5))) h'.
Proof.
  apply (proj1 (proj2 (proj2 (perimeter_low_dimensions example_heap example_c)))).
  reflexivity.
Defined.

(** X4.  [perimeter] of the empty box raises [TypeError]: [len(self)] asks
    for the length of [None]. *)
Theorem perimeter_of_empty_box_raises h r :
  unset h r → AABB.perimeter r h = Raise TypeError h.
Proof.
  intros [i E]%unset_lookup. unfold AABB.perimeter.
  by rewrite (bind_Raise _ _ _ _ _ (len_Raise _ _ _ E)).
Qed.

Lemma perimeter_of_empty_box_raises_witness :
  AABB.perimeter example_empty example_heap = Raise TypeError example_heap.
Proof.
  apply (perimeter_of_empty_box_raises example_heap example_empty).
  reflexivity.
Defined.

Lemma product_nonneg sides : Forall (λ x, 0 ≤ x) sides → 0 ≤ product sides.
Proof.
  induction 1 as [|x sides Hx _ IH]; unfold product in *; simpl; [lia|].
  by apply Z.mul_nonneg_nonneg.
Qed.

Lemma product_mono sides sides' :
  Forall2 (λ x y, 0 ≤ x ≤ y) sides sides' → product sides ≤ product sides'.
Proof.
  induction 1 as [|x y sides sides' Hxy HF IH]; unfold product in *; simpl;
    [lia|].
  apply Z.mul_le_mono_nonneg; [lia|lia| |done].
  apply product_nonneg. clear IH.
  induction HF as [|? ? ? ? [? ?]]; constructor; auto.
Qed.

Lemma sum_mono (g g' : nat → Z) (l : list nat) :
  (∀ i, g i ≤ g' i) → foldr Z.add 0 (g <$> l) ≤ foldr Z.add 0 (g' <$> l).
Proof.
  intros Hg. induction l as [|i l IH]; [done|].
  rewrite !fmap_cons. cbn [foldr]. specialize (Hg i). lia.
Qed.

Lemma sum_of_products_nonneg sides :
  Forall (λ x, 0 ≤ x) sides → 0 ≤ sum_of_products sides.
Proof.
  intros Hs. unfold sum_of_products.
  etrans; [|apply (sum_mono (λ _, 0))].
  - induction (seq 0 (length sides)) as [|i l IH]; [done|].
    rewrite fmap_cons. cbn [foldr]. lia.
  - intros i. apply product_nonneg. by apply list.Forall_delete.
Qed.

Lemma sum_of_products_mono sides sides' :
  Forall2 (λ x y, 0 ≤ x ≤ y) sides sides' →
  sum_of_products sides ≤ sum_of_products sides'.
Proof.
  intros HF. unfold sum_of_products. rewrite <-(list.Forall2_length _ _ _ HF).
  apply sum_mono. intros i. apply product_mono. by apply list.Forall2_delete.
Qed.

Lemma side_lens_nonneg l : Forall ivalid l → Forall (λ x, 0 ≤ x) (side_len <$> l).
Proof.
  intros Hl. apply list.Forall_fmap. eapply list.Forall_impl; [exact Hl|].
  intros [lo hi]. unfold ivalid, side_len. simpl. lia.
Qed.

Lemma perimeter_of_nonneg l : Forall ivalid l → 0 ≤ perimeter_of l.
Proof.
  intros Hl. unfold perimeter_of. destruct (length l =? 1)%nat; [done|].
  rewrite perim_sum_products.
  pose proof (sum_of_products_nonneg _ (side_lens_nonneg l Hl)). lia.
Qed.

Lemma merge_of_length l1 l2 :
  length (merge_of false l1 l2) = (length l1 `min` length l2)%nat.
Proof. unfold merge_of, zipped. by rewrite length_fmap, length_zip. Qed.

Lemma merge_of_lookup l1 l2 i a b :
  l1 !! i = Some a → l2 !! i = Some b →
  merge_of false l1 l2 !! i = Some (Z.min a.1 b.1, Z.max a.2 b.2).
Proof.
  unfold merge_of, zipped. revert l2 i.
  induction l1 as [|x l1 IH]; intros [|y l2] [|i]; simpl; try done.
  - by intros [= ->] [= ->].
  - apply IH.
Qed.

Lemma merge_sides_grow l1 l2 :
  Forall ivalid l1 → length l1 = length l2 →
  Forall2 (λ x y, 0 ≤ x ≤ y) (side_len <$> l1)
          (side_len <$> merge_of false l1 l2).
Proof.
  unfold merge_of, zipped. intros Hl. revert l2.
  induction Hl as [|[lo hi] l1 Hv _ IH]; intros [|[lo2 hi2] l2] Hlen;
    simpl in *; try done.
  constructor; [|apply IH; lia].
  unfold ivalid, side_len, merge1 in *. simpl in *. lia.
Qed.

Lemma perimeter_of_merge_mono l1 l2 :
  Forall ivalid l1 → length l1 = length l2 →
  perimeter_of l1 ≤ perimeter_of (merge_of false l1 l2).
Proof.
  intros Hl Hlen. unfold perimeter_of.
  rewrite merge_of_length, <-Hlen, Nat.min_id.
  destruct (length l1 =? 1)%nat; [done|]. rewrite !perim_sum_products.
  pose proof (sum_of_products_mono _ _ (merge_sides_grow l1 l2 Hl Hlen)). lia.
Qed.

(** X5.  The perimeter of a box is never negative. *)
Theorem perimeter_nonneg h r l :
  heap_ok h → box h r l →
  ∃ p h', AABB.perimeter r h = Ok p h' ∧ 0 ≤ p.
Proof.
  intros Hok B. destruct (perimeter_spec _ _ _ B) as (h' & E & _).
  exists (perimeter_of l), h'. split; [done|].
  apply perimeter_of_nonneg. by apply (heap_ok_lookup _ _ _ Hok B).
Qed.

Lemma example_heap_ok : heap_ok example_heap.
Proof.
  unfold heap_ok, example_heap, initial_heap. simpl.
  repeat constructor; unfold ivalid; simpl; lia.
Qed.


Lemma perimeter_nonneg_witness :
  ∃ p h', AABB.perimeter example_b example_heap = Ok p h' ∧ 0 ≤ p.
Proof.
  apply (perimeter_nonneg example_heap example_b [(0, 1); (2, 3)]);
    [apply example_heap_ok|reflexivity].
Defined.

(** X6.  Merging a box with another box object of the same dimension never
    lowers the perimeter: the pushdown cost that [add] computes from the
    two perimeters is not negative. *)
Theorem perimeter_grows_under_merge h a b la lb :
  heap_ok h → box h a la → box h b lb → a ≠ b → length la = length lb →
  ∃ p h1 m h2 p' h3,
    AABB.perimeter a h = Ok p h1 ∧ AABB.merge a b h1 = Ok m h2 ∧
    AABB.perimeter m h2 = Ok p' h3 ∧ p ≤ p'.
Proof.
  intros Hok Ba Bb Hne Hlen.
  destruct (perimeter_spec _ _ _ Ba) as (h1 & E1 & Hv1).
  destruct (merge_ok h1 a b (Some la) (Some lb)) as (h2 & E2 & Hv2 & Hok2);
    [by eapply heap_ok_view|by eapply box_view..|].
  rewrite bool_decide_eq_false_2 in Hv2 by done. simpl in Hv2.
  destruct (perimeter_spec h2 (length h1) (merge_of false la lb))
    as (h3 & E3 & _); [by eapply snoc_last|].
  eexists _, h1, _, h2, _, h3. split_and!; [done..|].
  apply perimeter_of_merge_mono; [|done].
  by apply (heap_ok_lookup _ _ _ Hok Ba).
Qed.

Lemma perimeter_grows_under_merge_witness :
  ∃ p h1 m h2 p' h3,
    AABB.perimeter example_b example_heap = Ok p h1 ∧
    AABB.merge example_b example_c h1 = Ok m h2 ∧
    AABB.perimeter m h2 = Ok p' h3 ∧ p ≤ p'.
Proof.
  apply (perimeter_grows_under_merge example_heap example_b example_c
           [(0, 1); (2, 3)] [(2, 4); (0, 5)]);
    [apply example_heap_ok|reflexivity|reflexivity
    |unfold example_b, example_c; lia|reflexivity].
Defined.

(** ** [merge] *)

Lemma merge_of_comm l1 l2 : merge_of false l1 l2 = merge_of false l2 l1.
Proof.
  unfold merge_of, zipped. revert l2.
  induction l1 as [|a l1 IH]; intros [|b l2]; simpl; try done.
  rewrite IH. f_equal. unfold merge1. simpl.
  by rewrite Z.min_comm, Z.max_comm.
Qed.

Lemma merged_of_comm o1 o2 : merged_of false o1 o2 = merged_of false o2 o1.
Proof. destruct o1, o2; simpl; try done. by rewrite merge_of_comm. Qed.

(** X7.  [merge] commutes: for any two box objects, [merge(a, b)] and
    [merge(b, a)] are new objects that compare equal. *)
Theorem merge_commutes h a b oa ob :
  heap_ok h → view h !! a = Some oa → view h !! b = Some ob →
  ∃ m1 h1 m2 h2 h3,
    AABB.merge a b h = Ok m1 h1 ∧ AABB.merge b a h1 = Ok m2 h2 ∧
    AABB.__eq__ m1 m2 h2 = Ok true h3 ∧ m1 ≠ m2.
Proof.
  intros Hok Va Vb.
  destruct (merge_ok _ _ _ _ _ Hok Va Vb) as (h1 & E1 & Hv1 & Hok1).
  pose proof (snoc_prefix _ _ _ Hv1) as Hp1.
  destruct (merge_ok h1 b a ob oa) as (h2 & E2 & Hv2 & Hok2);
    [done|by eapply view_prefix_lookup..|].
  pose proof (snoc_prefix _ _ _ Hv2) as Hp2.
  assert (merged_of (bool_decide (b = a)) ob oa
          = merged_of (bool_decide (a = b)) oa ob) as Hm.
  { destruct (decide (a = b)) as [->|Hne].
    - by assert (oa = ob) as -> by congruence.
    - rewrite !bool_decide_eq_false_2 by done. apply merged_of_comm. }
  rewrite Hm in Hv2.
  destruct (eq_spec h2 (length h) (length h1) _ _
              (view_prefix_lookup _ _ _ _ Hp2 (snoc_last _ _ _ Hv1))
              (snoc_last _ _ _ Hv2)) as (h3 & E3 & _).
  rewrite bool_decide_eq_true_2 in E3 by done.
  exists (length h), h1, (length h1), h2, h3. split_and!; [done..|].
  assert (length h1 = S (length h)) as ->; [|lia].
  rewrite <-!view_length, Hv1, length_app. simpl. lia.
Qed.

Lemma merge_commutes_witness :
  ∃ m1 h1 m2 h2 h3,
    AABB.merge example_b example_c example_heap = Ok m1 h1 ∧
    AABB.merge example_c example_b h1 = Ok m2 h2 ∧
    AABB.__eq__ m1 m2 h2 = Ok true h3 ∧ m1 ≠ m2.
Proof.
  apply (merge_commutes example_heap example_b example_c
           (Some [(0, 1); (2, 3)]) (Some [(2, 4); (0, 5)]));
    [apply example_heap_ok|reflexivity|reflexivity].
Defined.

(** X8.  For two distinct box objects with limits, [merge] returns a new
    box that has as many intervals as the shorter argument ([zip] stops
    there) and whose [i]-th interval is
    [(min(lo_a, lo_b), max(hi_a, hi_b))]: it contains the [i]-th interval
    of both arguments.  The arguments keep their limits. *)
Theorem merge_contains_both h a b la lb :
  heap_ok h → box h a la → box h b lb → a ≠ b →
  ∃ m h' lm,
    AABB.merge a b h = Ok m h' ∧ h !! m = None ∧ box h' m lm ∧
    box h' a la ∧ box h' b lb ∧
    length lm = (length la `min` length lb)%nat ∧
    ∀ i ia ib, la !! i = Some ia → lb !! i = Some ib →
               lm !! i = Some (Z.min ia.1 ib.1, Z.max ia.2 ib.2).
Proof.
  intros Hok Ba Bb Hne.
  destruct (merge_ok _ _ _ _ _ Hok Ba Bb) as (h' & E & Hv & _).
  rewrite bool_decide_eq_false_2 in Hv by done. simpl in Hv.
  pose proof (snoc_prefix _ _ _ Hv) as Hp.
  exists (length h), h', (merge_of false la lb). split_and!.
  - done.
  - by apply lookup_ge_None_2.
  - by eapply snoc_last.
  - by eapply box_prefix.
  - by eapply box_prefix.
  - apply merge_of_length.
  - intros i ia ib. apply merge_of_lookup.
Qed.

Lemma merge_contains_both_witness :
  ∃ m h' lm,
    AABB.merge example_b example_c example_heap = Ok m h' ∧
    example_heap !! m = None ∧ box h' m lm ∧
    box h' example_b [(0, 1); (2, 3)] ∧ box h' example_c [(2, 4); (0, 5)] ∧
    length lm = (length [(0, 1); (2, 3)] `min` length [(2, 4); (0, 5)])%nat ∧
    ∀ i ia ib, [(0, 1); (2, 3)] !! i = Some ia →
               [(2, 4); (0, 5)] !! i = Some ib →
               lm !! i = Some (Z.min ia.1 ib.1, Z.max ia.2 ib.2).
Proof.
  apply (merge_contains_both example_heap example_b example_c);
    [apply example_heap_ok|reflexivity|reflexivity
    |unfold example_b, example_c; lia].
Defined.

Lemma pair_up_length {A} (l : list A) :
  length (pair_up l) = (length l / 2)%nat.
Proof.
  induction l as [l IH] using (induction_ltof1 _ (@length A)).
  unfold ltof in IH. destruct l as [|a [|b l]]; [done..|].
  simpl pair_up. simpl length. rewrite IH by (simpl; lia).
  change (S (S (length l))) with (2 + length l)%nat.
  by rewrite (Nat.div_add_l 1 2) by done.
Qed.

(** X9.  One object in both argument places: [merge(a, a)] and
    [a.overlaps(a)] run [zip] over a single iterator, so they work on the
    pairs of consecutive intervals of [a] (the first with the second, the
    third with the fourth, ...), and the merged box has half as many
    intervals as [a]. *)
Theorem same_object_pairs_consecutive_intervals h a l :
  heap_ok h → box h a l →
  ∃ m h1 r h2,
    AABB.merge a a h = Ok m h1 ∧ box h1 m (merge1 <$> pair_up l) ∧
    length (merge1 <$> pair_up l) = (length l / 2)%nat ∧
    AABB.overlaps a a h = Ok r h2 ∧ r = forallb overlap1 (pair_up l).
Proof.
  intros Hok B.
  destruct (merge_ok _ _ _ _ _ Hok B B) as (h1 & E1 & Hv1 & _).
  rewrite bool_decide_eq_true_2 in Hv1 by done.
  destruct (overlaps_spec _ _ _ _ _ B B) as (h2 & E2 & _).
  rewrite bool_decide_eq_true_2 in E2 by done.
  eexists (length h), h1, _, h2. split_and!; [done| | |done|done].
  - by eapply snoc_last.
  - by rewrite length_fmap, pair_up_length.
Qed.

Lemma same_object_pairs_consecutive_intervals_witness :
  ∃ m h1 r h2,
    AABB.merge example_b example_b example_heap = Ok m h1 ∧
    box h1 m (merge1 <$> pair_up [(0, 1); (2, 3)]) ∧
    length (merge1 <$> pair_up [(0, 1); (2, 3)])
      = (length [(0, 1); (2, 3)] / 2)%nat ∧
    AABB.overlaps example_b example_b example_heap = Ok r h2 ∧
    r = forallb overlap1 (pair_up [(0, 1); (2, 3)]).
Proof.
  apply (same_object_pairs_consecutive_intervals example_heap example_b);
    [apply example_heap_ok|reflexivity].
Defined.

(** ** [overlaps] and the empty box *)

Lemma overlaps_unset_arg h x q a l :
  box h x (a :: l) → unset h q →
  ∃ h', AABB.overlaps x q h = Raise TypeError h'.
Proof.
  intros Bx Uq. assert (x ≠ q) as Hne.
  { intros ->. unfold box, unset in *. congruence. }
  unfold AABB.overlaps. mstep (rounds_Ok _ _ _ Bx).
  destruct (iter_spec _ _ _ Bx) as (h1 & E1 & Hv1 & P1 & Hfr1). mstep E1.
  destruct (unset_lookup h q Uq) as [iq Eq].
  assert (h1 !! q = Some (mkAABB None iq)) as Eq1 by (by rewrite Hfr1).
  mstep (iter_any _ _ _ Eq1). simpl.
  set (h2 := <[q := mkAABB None 0]> h1).
  assert (pending h2 x (a :: l)) as P2.
  { eapply pending_other; [|exact Hne|exact P1].
    intros r0 Hr0. unfold h2. by apply list_lookup_insert_ne. }
  destruct (next_cons _ _ _ _ P2) as (h3 & E3 & _ & _ & Hfr3).
  assert (h3 !! q = Some (mkAABB None 0)) as Eq3.
  { rewrite Hfr3 by done. unfold h2.
    apply list_lookup_insert_eq. by eapply lookup_lt_Some. }
  exists h3. unfold AABB.zip_next. rewrite !bind_assoc. mstep E3.
  unfold AABB.__next__. rewrite !bind_assoc. mstep (load_Ok _ _ _ Eq3).
  rewrite !bind_assoc. by rewrite (bind_Raise _ _ _ _ _ (len_Raise _ _ _ Eq3)).
Qed.

Lemma overlaps_no_interval h x q oq :
  box h x [] → view h !! q = Some oq →
  ∃ h', AABB.overlaps x q h = Ok true h'.
Proof.
  intros Bx [iq Eq]%view_lookup_Some.
  unfold AABB.overlaps. mstep (rounds_Ok _ _ _ Bx).
  destruct (iter_spec _ _ _ Bx) as (h1 & E1 & Hv1 & P1 & Hfr1). mstep E1.
  assert (∃ o, h1 !! q = Some o ∧ (q = x → limits o = Some [])) as (o & Eq1 & Ho).
  { destruct (decide (q = x)) as [->|Hne].
    - destruct P1 as (l0 & i0 & E0 & Hd0). eexists. split; [exact E0|].
      intros _. simpl. f_equal. destruct (box_lookup h1 x []) as [j Ej].
      { by eapply box_view. }
      congruence.
    - exists (mkAABB oq iq). split; [by rewrite Hfr1|done]. }
  mstep (iter_any _ _ _ Eq1). simpl.
  set (h2 := <[q := mkAABB (limits o) 0]> h1).
  assert (pending h2 x []) as P2.
  { destruct (decide (q = x)) as [->|Hne].
    - exists [], 0%nat. split; [|done]. unfold h2. rewrite Ho by done.
      apply list_lookup_insert_eq. by eapply lookup_lt_Some.
    - eapply pending_other; [|by apply not_eq_sym|exact P1].
      intros r0 Hr0. unfold h2. by apply list_lookup_insert_ne. }
  exists h2. unfold AABB.zip_next. rewrite !bind_assoc.
  by mstep (next_nil _ _ P2).
Qed.

(** X10.  [overlaps] and boxes without limits.  [x.overlaps(q)] raises
    [TypeError] when [x] is the empty box, and when [q] is the empty box
    and [x] has at least one interval; when [x] has limits but no interval
    ([AABB([])]) it returns [True] whatever [q] is, the empty box
    included, because [zip] stops before it touches [q]. *)
Theorem overlaps_with_empty_box h x q :
  (∀ oq, unset h x → view h !! q = Some oq →
         ∃ h', AABB.overlaps x q h = Raise TypeError h') ∧
  (∀ a l, box h x (a :: l) → unset h q →
          ∃ h', AABB.overlaps x q h = Raise TypeError h') ∧
  (∀ oq, box h x [] → view h !! q = Some oq →
         ∃ h', AABB.overlaps x q h = Ok true h').
Proof.
  split_and!.
  - intros oq. apply overlaps_unset.
  - apply overlaps_unset_arg.
  - apply overlaps_no_interval.
Qed.

Lemma overlaps_with_empty_box_witness :
  ∃ h', AABB.overlaps example_b example_empty example_heap
          = Raise TypeError h'.
Proof.
  apply (proj1 (proj2 (overlaps_with_empty_box example_heap example_b
                         example_empty)) (0, 1) [(2, 3)]); reflexivity.
Defined.

(** * Further properties of the queries *)

(** X11.  The queries are read-only and repeatable on a tree that holds at
    least one item: they change the limits of no box, and asking again
    gives the same answer, although each query moves the cursors of the
    boxes it visits. *)
Theorem queries_are_repeatable {V} h (t : AABBTree.t V) q lq :
  proper (view h) t → box h q lq →
  ∃ found h1 h2 values h3 h4,
    AABBTree.does_overlap t q h = Ok found h1 ∧
    AABBTree.does_overlap t q h1 = Ok found h2 ∧
    AABBTree.overlap_values t q h2 = Ok values h3 ∧
    AABBTree.overlap_values t q h3 = Ok values h4 ∧
    view h4 = view h.
Proof.
  intros Hpr Bq.
  destruct (does_overlap_spec h t q lq Hpr Bq) as (h1 & E1 & Hv1).
  destruct (does_overlap_spec h1 t q lq) as (h2 & E2 & Hv2);
    [by rewrite Hv1|by eapply box_view|].
  assert (view h2 = view h) as Hv2' by congruence.
  destruct (overlap_values_spec h2 t q lq) as (h3 & E3 & Hv3);
    [by rewrite Hv2'|by eapply box_view|].
  assert (view h3 = view h) as Hv3' by congruence.
  destruct (overlap_values_spec h3 t q lq) as (h4 & E4 & Hv4);
    [by rewrite Hv3'|by eapply box_view|].
  rewrite Hv1 in E2. rewrite Hv2' in E3. rewrite Hv3' in E4.
  eexists _, h1, h2, _, h3, h4. split_and!; [done..|congruence].
Qed.

Lemma queries_are_repeatable_witness :
  ∃ found h1 h2 values h3 h4,
    AABBTree.does_overlap example_node example_d example_heap2 = Ok found h1 ∧
    AABBTree.does_overlap example_node example_d h1 = Ok found h2 ∧
    AABBTree.overlap_values example_node example_d h2 = Ok values h3 ∧
    AABBTree.overlap_values example_node example_d h3 = Ok values h4 ∧
    view h4 = view example_heap2.
Proof.
  apply (queries_are_repeatable example_heap2 example_node example_d
           [(0, 1); (1, 2)]); [|reflexivity].
  simpl. split_and!; try done; eexists; reflexivity.
Defined.



(** * Further properties of [add] *)

Section AddValues.
Context {V : Type}.
Implicit Types (t : AABBTree.t V).

Lemma abs_leaf_values L L' t :
  ∀ t', abs L t = abs L' t' →
  leaf_values t = leaf_values t' ∧
  (inner_values_none t → inner_values_none t').
Proof.
  induction t as [a v l r IHl IHr] using tree_ind.
  intros [a' v' l' r']. simpl. intros [= _ <- Hl Hr].
  destruct l as [l|], l' as [l'|], r as [r|], r' as [r'|]; simpl in *;
    try done.
  injection Hl as Hl. injection Hr as Hr.
  destruct (IHl _ Hl) as [-> Hil]. destruct (IHr _ Hr) as [-> Hir].
  split; [done|]. intros (? & ? & ?). auto.
Qed.

Lemma add_values t :
  ∀ h b v lb t' h', heap_ok h → proper (view h) t → box h b lb →
  AABBTree.add t b v h = Ok t' h' →
  leaf_values t' ≡ₚ leaf_values t ++ [v] ∧
  (inner_values_none t → inner_values_none t').
Proof.
  induction t as [a v0 l r IHl IHr] using tree_ind.
  intros h b v lb t' h' Hok Hpr Bb Hadd.
  destruct (proper_box _ _ Hpr) as [ls Bs]. simpl in Bs.
  destruct l as [sl|], r as [sr|]; try (simpl in Hpr; tauto).
  - pose proof Hpr as (_ & Hprl & Hprr). simpl in Hprl, Hprr, IHl, IHr.
    destruct (proper_box _ _ Hprl) as [ll Bl].
    destruct (proper_box _ _ Hprr) as [lr Br].
    set (self := AABBTree.mkAABBTree a v0 (Some sl) (Some sr)) in *.
    destruct (add_internal_run h self sl sr b v ls ll lr lb Hok
                eq_refl eq_refl Bs Bl Br Bb) as (h1 & Hok1 & Hp1 & E).
    cbv zeta in E. rewrite E in Hadd. clear E.
    match type of Hadd with
    | context [if ?c then split_here _ _ _ else _] => destruct c
    end.
    { destruct (split_here_spec h1 self b v ls lb)
        as (t'' & h'' & E & _ & _ & _ & _ & _ & Habs & _);
        [done|by eapply proper_prefix|by eapply box_prefix..|].
      rewrite E in Hadd. injection Hadd as <- <-.
      destruct t'' as [a'' v'' [x|] [y|]]; simpl in Habs; try done.
      injection Habs as _ -> Hx Hy.
      destruct (abs_leaf_values (view h1) (view h'') self x (eq_sym Hx))
        as [Hlv Hinner].
      destruct y as [ay vy [?|] [?|]]; simpl in Hy; try done.
      injection Hy as _ ->. simpl in *. split; [by rewrite <-Hlv|].
      intros Hi. split_and!; [done|by apply Hinner|done]. }
    match type of Hadd with
    | context [if ?c then descend_left _ _ _ _ _ else _] => destruct c
    end.
    + destruct (add_spec sl h1 b v lb)
        as (l' & h2 & El & Hok2 & Hp2 & Hpr2 & _);
        [done|by eapply proper_prefix|by eapply box_prefix|].
      destruct (proper_box _ _ Hpr2) as [ll' Bl'].
      destruct (merge_ok h2 (AABBTree.aabb l') (AABBTree.aabb sr)
                  (Some ll') (Some lr)) as (h3 & E3 & _);
        [done|done|eapply box_prefix; [|exact Br]; by etrans|].
      unfold descend_left in Hadd.
      rewrite (bind_Ok _ _ _ _ _ El), (bind_Ok _ _ _ _ _ E3) in Hadd.
      injection Hadd as <- <-.
      destruct (IHl h1 b v lb l' h2) as [Hlv Hinner];
        [done|by eapply proper_prefix|by eapply box_prefix|done|].
      simpl. split.
      * rewrite Hlv, <-!app_assoc. f_equiv. apply Permutation_app_comm.
      * intros (? & ? & ?). auto.
    + destruct (add_spec sr h1 b v lb)
        as (r' & h2 & Er & Hok2 & Hp2 & Hpr2 & _);
        [done|by eapply proper_prefix|by eapply box_prefix|].
      destruct (proper_box _ _ Hpr2) as [lr' Br'].
      destruct (merge_ok h2 (AABBTree.aabb sl) (AABBTree.aabb r')
                  (Some ll) (Some lr')) as (h3 & E3 & _);
        [done|eapply box_prefix; [|exact Bl]; by etrans|done|].
      unfold descend_right in Hadd.
      rewrite (bind_Ok _ _ _ _ _ Er), (bind_Ok _ _ _ _ _ E3) in Hadd.
      injection Hadd as <- <-.
      destruct (IHr h1 b v lb r' h2) as [Hlv Hinner];
        [done|by eapply proper_prefix|by eapply box_prefix|done|].
      simpl. split.
      * by rewrite Hlv, app_assoc.
      * intros (? & ? & ?). auto.
  - set (self := AABBTree.mkAABBTree a v0 None None) in *.
    destruct (add_leaf_run h self b v ls eq_refl Bs) as (h1 & Hv1 & E).
    rewrite E in Hadd. clear E.
    pose proof (snoc_prefix _ _ _ Hv1) as Hp1.
    assert (heap_ok h1) as Hok1 by (by eapply heap_ok_snoc).
    destruct (deepcopy_spec self h1 Hok1)
      as (l & h2 & E2 & Hok2 & Hp2 & _ & Habs & _).
    { apply proper_valid. by eapply proper_prefix. }
    destruct (merge_ok h2 a b (Some ls) (Some lb)) as (h3 & E3 & _);
      [done|eapply box_prefix; [|exact Bs]; by etrans
      |eapply box_prefix; [|exact Bb]; by etrans|].
    rewrite (bind_Ok _ _ _ _ _ E2), (bind_Ok _ _ _ _ _ E3) in Hadd.
    injection Hadd as <- <-.
    destruct (abs_leaf_values _ _ _ _ (eq_sym Habs)) as [Hlv _].
    simpl in *. split; [by rewrite <-Hlv|].
    intros _. split_and!; [done| |done].
    destruct l as [al vl [ll0|] [lr0|]]; simpl in *; try done.
Qed.
End AddValues.

Section AddAllValues.
Context {V : Type}.
Implicit Types (t : AABBTree.t V) (items : list (ref * option V)).

Lemma add_all_values items :
  ∀ t h t' h', heap_ok h → proper (view h) t →
  Forall (λ it, ∃ l, box h it.1 l) items →
  add_all t items h = Ok t' h' →
  leaf_values t' ≡ₚ leaf_values t ++ items.*2 ∧
  (inner_values_none t → inner_values_none t').
Proof.
  induction items as [|[b v] items IH]; intros t h t' h' Hok Hpr Hit Hadd.
  - injection Hadd as <- <-. by rewrite app_nil_r.
  - apply list.Forall_cons in Hit as [[lb Bb] Hit]. simpl in Bb.
    destruct (add_spec t h b v lb Hok Hpr Bb)
      as (t1 & h1 & E1 & Hok1 & Hp1 & Hpr1 & _).
    simpl in Hadd. rewrite (bind_Ok _ _ _ _ _ E1) in Hadd.
    destruct (add_values t h b v lb t1 h1 Hok Hpr Bb E1) as [Hlv1 Hin1].
    destruct (IH t1 h1 t' h' Hok1 Hpr1) as [Hlv Hin]; [|done|].
    { eapply list.Forall_impl; [exact Hit|]. intros it [l Bl].
      exists l. by eapply box_prefix. }
    split; [|auto]. rewrite Hlv, Hlv1. by rewrite <-app_assoc.
Qed.
End AddAllValues.

(** X13.  A tree built by insertions into an empty tree holds every
    inserted value at exactly one leaf, and no value at an internal node.
    This does not depend on the box objects being distinct. *)
Theorem add_keeps_every_value {V} h (t : AABBTree.t V) items :
  heap_ok h → uninitialized (view h) t → items ≠ [] →
  Forall (λ it, ∃ l, box h it.1 l) items →
  ∃ t' h', add_all t items h = Ok t' h' ∧
    leaf_values t' ≡ₚ items.*2 ∧ inner_values_none t'.
Proof.
  intros Hok Ht Hne Hit. destruct items as [|[b v] items]; [done|].
  apply list.Forall_cons in Hit as [[lb Bb] Hit]. simpl in Bb.
  destruct (add_first h t b v lb Hok Ht Bb) as (h1 & E1 & Hok1 & Hp1 & _ & Hpr1).
  assert (Forall (λ it, ∃ l, box h1 it.1 l) items) as Hit1.
  { eapply list.Forall_impl; [exact Hit|]. intros it [l Bl].
    exists l. by eapply box_prefix. }
  destruct (add_all_proper items _ h1 Hok1 Hpr1 Hit1) as (t' & h' & E & _).
  destruct (add_all_values items _ h1 t' h' Hok1 Hpr1 Hit1 E) as [Hlv Hin].
  exists t', h'. simpl. mstep E1. split_and!; [done|done|by apply Hin].
Qed.

Lemma add_keeps_every_value_witness :
  ∃ t' h', add_all (empty_tree (V:=nat))
             [(example_b, Some 1%nat); (example_c, Some 2%nat);
              (example_b, Some 3%nat)] example_heap = Ok t' h' ∧
    leaf_values t' ≡ₚ [Some 1%nat; Some 2%nat; Some 3%nat] ∧
    inner_values_none t'.
Proof.
  apply (add_keeps_every_value example_heap empty_tree
           [(example_b, Some 1%nat); (example_c, Some 2%nat);
            (example_b, Some 3%nat)]).
  - apply example_heap_ok.
  - unfold uninitialized. simpl. split; [reflexivity|]. split; reflexivity.
  - discriminate.
  - repeat constructor; simpl; eexists; reflexivity.
Defined.



(** X15.  The first insertion: on a tree whose root box has no limits,
    [add] puts the given box object itself (not a copy) and the value into
    the root, keeps the children as they are, and creates no node; the
    store gains only the temporary [AABB()] of the test. *)
Theorem add_into_empty_tree {V} h (t : AABBTree.t V) b v :
  unset h (AABBTree.aabb t) →
  ∃ h', AABBTree.add t b v h
          = Ok (AABBTree.mkAABBTree b v (AABBTree.left t) (AABBTree.right t)) h'
        ∧ view h' = view h ++ [None].
Proof. apply add_uninitialized. Qed.

Lemma add_into_empty_tree_witness :
  ∃ h', AABBTree.add (empty_tree (V:=nat)) example_b (Some 1%nat) example_heap
          = Ok (AABBTree.mkAABBTree example_b (Some 1%nat) None None) h'
        ∧ view h' = view example_heap ++ [None].
Proof.
  apply (add_into_empty_tree example_heap empty_tree example_b (Some 1%nat)).
  reflexivity.
Defined.

(** X16.  Insertion at a leaf that holds an item: the leaf becomes an
    internal node without value; its left child is a new leaf with the old
    value and a new box object that has the old limits, its right child is
    a new leaf with the given value and the given box object itself, and
    its box is a new object, [merge] of the old box and the given one. *)
Theorem add_at_leaf_splits {V} h (t : AABBTree.t V) b v ls lb :
  heap_ok h → AABBTree.is_leaf t = true →
  box h (AABBTree.aabb t) ls → box h b lb →
  ∃ m c h',
    AABBTree.add t b v h
      = Ok (AABBTree.mkAABBTree m None
              (Some (AABBTree.mkAABBTree c (AABBTree.value t) None None))
              (Some (AABBTree.mkAABBTree b v None None))) h' ∧
    h !! m = None ∧ h !! c = None ∧ m ≠ c ∧ box h' c ls ∧
    box h' m (merge_of (bool_decide (AABBTree.aabb t = b)) ls lb) ∧
    box h' (AABBTree.aabb t) ls ∧ box h' b lb.
Proof.
  intros Hok Hleaf Bs Bb.
  destruct (add_leaf_run h t b v ls Hleaf Bs) as (h1 & Hv1 & E).
  pose proof (snoc_prefix _ _ _ Hv1) as Hp1.
  assert (heap_ok h1) as Hok1 by (by eapply heap_ok_snoc).
  assert (proper (view h) t) as Hpr.
  { destruct t as [a v0 [?|] [?|]]; try done. simpl. eauto. }
  destruct (deepcopy_spec t h1 Hok1)
    as (l & h2 & E2 & Hok2 & Hp2 & Hfr & Habs & _).
  { apply proper_valid. by eapply proper_prefix. }
  destruct (merge_ok h2 (AABBTree.aabb t) b (Some ls) (Some lb))
    as (h3 & E3 & Hv3 & Hok3);
    [done|eapply box_prefix; [|exact Bs]; by etrans
    |eapply box_prefix; [|exact Bb]; by etrans|].
  pose proof (snoc_prefix _ _ _ Hv3) as Hp3.
  pose proof (view_prefix_length _ _ Hp1) as Hlen1.
  pose proof (view_prefix_length _ _ Hp2) as Hlen2.
  destruct t as [a v0 [?|] [?|]]; try done.
  destruct l as [c vc [?|] [?|]]; simpl in Habs; try done.
  injection Habs as Hc ->. simpl in *.
  apply list.Forall_cons in Hfr as [Hcfr _].
  exists (length h2), c, h3. rewrite E. mstep E2. mstep E3.
  split_and!; [done|by apply lookup_ge_None_2; lia
              |by apply lookup_ge_None_2; lia|lia| | | |].
  - eapply box_prefix; [exact Hp3|]. apply lims_at_Some. rewrite Hc.
    apply lims_at_box. by eapply box_prefix.
  - by eapply snoc_last.
  - eapply box_prefix; [|exact Bs]. by do 3 (etrans; [eassumption|]).
  - eapply box_prefix; [|exact Bb]. by do 3 (etrans; [eassumption|]).
Qed.

Lemma add_at_leaf_splits_witness :
  ∃ m c h',
    AABBTree.add example_leaf_x example_c (Some 5%nat) example_heap
      = Ok (AABBTree.mkAABBTree m None
              (Some (AABBTree.mkAABBTree c (Some 1%nat) None None))
              (Some (AABBTree.mkAABBTree example_c (Some 5%nat) None None)))
           h' ∧
    example_heap !! m = None ∧ example_heap !! c = None ∧ m ≠ c ∧
    box h' c [(0, 1); (2, 3)] ∧
    box h' m (merge_of (bool_decide (example_b = example_c))
                       [(0, 1); (2, 3)] [(2, 4); (0, 5)]) ∧
    box h' example_b [(0, 1); (2, 3)] ∧ box h' example_c [(2, 4); (0, 5)].
Proof.
  apply (add_at_leaf_splits example_heap example_leaf_x example_c (Some 5%nat));
    [apply example_heap_ok|reflexivity..].
Defined.

(** * More on equality of trees *)

Section TreeEqDecides.
Context {V : Type}.
Implicit Types (t : AABBTree.t V).

Lemma same_boxes_view L L' t1 : ∀ t2,
  L `prefix_of` L' → same_boxes L t1 t2 → same_boxes L' t1 t2.
Proof.
  induction t1 as [a1 v1 l1 r1 IHl IHr] using tree_ind.
  intros [a2 v2 l2 r2] Hp. simpl. intros ((o & E1 & E2) & Hl & Hr).
  split_and!.
  - exists o. split; by eapply prefix_lookup_Some.
  - destruct l1, l2; simpl in *; auto.
  - destruct r1, r2; simpl in *; auto.
Qed.

Lemma tree_eq_spec t1 :
  ∀ t2 h, Forall (λ r, r < length h)%nat (refs t1) →
          Forall (λ r, r < length h)%nat (refs t2) →
  ∃ b h', AABBTree.__eq__ t1 (Some t2) h = Ok b h' ∧ view h' = view h ∧
          (b = true ↔ same_boxes (view h) t1 t2).
Proof.
  induction t1 as [a1 v1 l1 r1 IHl IHr] using tree_ind.
  intros [a2 v2 l2 r2] h. simpl.
  rewrite !list.Forall_cons, !list.Forall_app.
  intros (Ha1 & Hl1 & Hr1) (Ha2 & Hl2 & Hr2).
  rewrite <-(view_length h) in Ha1, Ha2.
  destruct (lookup_lt_is_Some_2 _ _ Ha1) as [o1 E1].
  destruct (lookup_lt_is_Some_2 _ _ Ha2) as [o2 E2].
  destruct (ne_spec _ _ _ _ _ E1 E2) as (h1 & N & Hv1).
  mstep N. destruct (decide (o1 = o2)) as [->|Hne].
  2:{ rewrite bool_decide_eq_false_2 by done. simpl. exists false, h1.
      split_and!; [done|done|]. split; [done|].
      intros ((o & ? & ?) & _). congruence. }
  rewrite bool_decide_eq_true_2 by done. simpl.
  set (s1 := AABBTree.mkAABBTree a1 v1 l1 r1).
  set (s2 := AABBTree.mkAABBTree a2 v2 l2 r2).
  destruct (eqb (AABBTree.is_leaf s1) (AABBTree.is_leaf s2)) eqn:Hleaf; simpl.
  2:{ exists false, h1. split_and!; [done|done|]. split; [done|].
      intros Hs. apply (same_boxes_is_leaf _ s1 s2) in Hs.
      rewrite Hs, eqb_reflx in Hleaf. done. }
  assert (∀ (c1 c2 : option (AABBTree.t V)) h0,
    view h0 = view h →
    from_option
      (λ t1, ∀ t2 h, Forall (λ r, r < length h)%nat (refs t1) →
                     Forall (λ r, r < length h)%nat (refs t2) →
         ∃ b h', AABBTree.__eq__ t1 (Some t2) h = Ok b h' ∧ view h' = view h ∧
                 (b = true ↔ same_boxes (view h) t1 t2)) True c1 →
    Forall (λ r, r < length h)%nat
           (match c1 with Some l => refs l | None => [] end) →
    Forall (λ r, r < length h)%nat
           (match c2 with Some l => refs l | None => [] end) →
    ∃ b h2, match c1 with
            | Some l => AABBTree.__eq__ l c2
            | None => mret (match c2 with None => true | Some _ => false end)
            end h0 = Ok b h2 ∧ view h2 = view h ∧
            (b = true ↔ match c1, c2 with
                        | Some x, Some y => same_boxes (view h) x y
                        | None, None => True
                        | _, _ => False
                        end)) as Hchild.
  { intros c1 c2 h0 Hv0 IH Hc1 Hc2.
    assert (length h0 = length h) as Hlen0.
    { by rewrite <-!view_length, Hv0. }
    destruct c1 as [x|], c2 as [y|]; simpl in *.
    - destruct (IH y h0) as (b & h2 & E & Hv2 & Hb);
        [by rewrite Hlen0..|].
      exists b, h2. rewrite Hv0 in *. split_and!; [done|congruence|done].
    - exists false, h0. destruct x. simpl. split_and!; [done|done|].
      split; [done|tauto].
    - exists false, h0. split_and!; [done|done|]. split; [done|tauto].
    - exists true, h0. split_and!; [done|done|]. tauto. }
  destruct (Hchild l1 l2 h1 Hv1 IHl Hl1 Hl2) as (bl & h2 & El & Hv2 & Hbl).
  simpl. mstep El. destruct bl.
  - destruct (Hchild r1 r2 h2 Hv2 IHr Hr1 Hr2) as (br & h3 & Er & Hv3 & Hbr).
    exists br, h3. split_and!; [done|done|].
    rewrite Hbr. split.
    + intros Hr. split_and!; [by exists o2| |done]. by apply Hbl.
    + by intros (_ & _ & Hr).
  - exists false, h2. split_and!; [done|done|]. split; [done|].
    intros (_ & Hl & _). apply Hbl in Hl. done.
Qed.

End TreeEqDecides.

(** X17.  [AABBTree.__eq__] on two trees whose boxes exist never raises,
    leaves every box as it was, and returns [True] exactly when the two
    trees agree on boxes and shape node by node; [AABBTree.__ne__] returns
    the negation; compared with [None], a tree is never equal. *)
Theorem tree_eq_decides_boxes_and_shape {V} h (t1 t2 : AABBTree.t V) :
  Forall (λ r, r < length h)%nat (refs t1) →
  Forall (λ r, r < length h)%nat (refs t2) →
  ∃ b h', AABBTree.__eq__ t1 (Some t2) h = Ok b h' ∧
          AABBTree.__ne__ t1 (Some t2) h = Ok (negb b) h' ∧
          view h' = view h ∧
          (b = true ↔ same_boxes (view h) t1 t2) ∧
          AABBTree.__eq__ t1 None h = Ok false h.
Proof.
  intros H1 H2. destruct (tree_eq_spec t1 t2 h H1 H2) as (b & h' & E & Hv & Hb).
  exists b, h'. split_and!; [done| |done|done|by destruct t1].
  unfold AABBTree.__ne__. by mstep E.
Qed.

Lemma tree_eq_decides_boxes_and_shape_witness :
  ∃ b h', AABBTree.__eq__ example_node (Some example_left) example_heap2
            = Ok b h' ∧
          AABBTree.__ne__ example_node (Some example_left) example_heap2
            = Ok (negb b) h' ∧
          view h' = view example_heap2 ∧
          (b = true ↔ same_boxes (view example_heap2) example_node example_left) ∧
          AABBTree.__eq__ example_node None example_heap2
            = Ok false example_heap2.
Proof.
  apply (tree_eq_decides_boxes_and_shape example_heap2 example_node example_left);
    repeat constructor.
Defined.



(** * The iterator protocol *)

Lemma collect_loop_spec fuel :
  ∀ h r rest items, pending h r rest → (length rest < fuel)%nat →
  ∃ h', collect_loop fuel r items h = Ok (items ++ rest) h' ∧
        view h' = view h ∧ pending h' r [].
Proof.
  induction fuel as [|fuel IH]; intros h r rest items P Hf; [lia|].
  simpl. destruct rest as [|a rest].
  - exists h. mstep (next_nil _ _ P). by rewrite app_nil_r.
  - destruct (next_cons _ _ _ _ P) as (h1 & E1 & Hv1 & P1 & _). mstep E1.
    destruct (IH h1 r rest (items ++ [a]) P1) as (h2 & E2 & Hv2 & P2);
      [simpl in Hf; lia|].
    exists h2. rewrite E2, <-app_assoc. split_and!; [done|congruence|done].
Qed.

Lemma list_of_box_spec h r l :
  box h r l →
  ∃ h', list_of_box r h = Ok l h' ∧ view h' = view h ∧ pending h' r [].
Proof.
  intros B. unfold list_of_box. mstep (rounds_Ok _ _ _ B).
  destruct (iter_spec _ _ _ B) as (h1 & E1 & Hv1 & P1 & _). mstep E1.
  destruct (collect_loop_spec (S (length l)) h1 r l [] P1) as (h2 & E2 & Hv2 & P2);
    [lia|].
  exists h2. split_and!; [done|congruence|done].
Qed.

(** X22.  Iterating a box yields its intervals in order, wherever its
    cursor stood before: [list(b)] is the list of limits of [b].  Iterating
    again gives the same list, because [__iter__] rewinds the cursor; and
    once the cursor is at the end, [__next__] keeps signalling
    [StopIteration] and changes nothing. *)
Theorem iteration_yields_limits h b l :
  box h b l →
  ∃ h1 h2, list_of_box b h = Ok l h1 ∧ list_of_box b h1 = Ok l h2 ∧
           view h2 = view h ∧ AABB.__next__ b h2 = Ok None h2.
Proof.
  intros B. destruct (list_of_box_spec h b l B) as (h1 & E1 & Hv1 & _).
  destruct (list_of_box_spec h1 b l) as (h2 & E2 & Hv2 & P2);
    [by eapply box_view|].
  exists h1, h2. split_and!; [done|done|congruence|by apply next_nil].
Qed.

Lemma iteration_yields_limits_witness :
  ∃ h1 h2, list_of_box example_b example_heap = Ok [(0, 1); (2, 3)] h1 ∧
           list_of_box example_b h1 = Ok [(0, 1); (2, 3)] h2 ∧
           view h2 = view example_heap ∧ AABB.__next__ example_b h2 = Ok None h2.
Proof.
  apply (iteration_yields_limits example_heap example_b [(0, 1); (2, 3)]).
  reflexivity.
Defined.

(** * Queries at the edges *)

(** X23.  A query with a box without limits raises [TypeError] on every
    tree that holds an item and whose boxes all have at least one
    interval: the first [overlaps] call, at the root when it is a leaf and
    at the left child otherwise, reaches [len(None)]. *)
Theorem query_with_empty_box_raises {V} h (t : AABBTree.t V) q :
  proper (view h) t → unset h q →
  Forall (λ r, ∃ a l, box h r (a :: l)) (refs t) →
  ∃ h1 h2, AABBTree.does_overlap t q h = Raise TypeError h1 ∧
           AABBTree.overlap_values t q h = Raise TypeError h2.
Proof.
  intros Hpr Uq Hne. destruct t as [a v [l|] [r|]]; simpl in Hpr; try tauto.
  - simpl in Hne. apply list.Forall_cons in Hne as [_ Hne].
    apply list.Forall_app in Hne as [Hl _].
    destruct l as [al vl ll rl]. simpl in Hl.
    apply list.Forall_cons in Hl as [(x & lx & Bl) _].
    destruct (overlaps_unset_arg _ _ _ _ _ Bl Uq) as (h1 & E1).
    exists h1, h1. split.
    + simpl. unfold AABBTree.is_leaf. simpl. unfold AABBTree.child.
      rewrite bind_ret. by rewrite (bind_Raise _ _ _ _ _ E1).
    + simpl. unfold AABBTree.is_leaf. simpl. unfold AABBTree.child.
      rewrite bind_ret. by rewrite (bind_Raise _ _ _ _ _ E1).
  - simpl in Hne. apply list.Forall_cons in Hne as [(x & lx & Ba) _].
    destruct (overlaps_unset_arg _ _ _ _ _ Ba Uq) as (h1 & E1).
    exists h1, h1. split.
    + simpl. unfold AABBTree.is_leaf. simpl. exact E1.
    + simpl. unfold AABBTree.is_leaf. simpl.
      by rewrite (bind_Raise _ _ _ _ _ E1).
Qed.

Lemma query_with_empty_box_raises_witness :
  ∃ h1 h2,
    AABBTree.does_overlap example_node default_aabb example_heap2
      = Raise TypeError h1 ∧
    AABBTree.overlap_values example_node default_aabb example_heap2
      = Raise TypeError h2.
Proof.
  apply (query_with_empty_box_raises example_heap2 example_node default_aabb).
  - simpl. split; [by eexists|]. split; (split; [by eexists|exact I]).
  - reflexivity.
  - simpl. repeat (apply list.Forall_cons; split; [do 2 eexists; reflexivity|]).
    constructor.
Defined.

Section OnlyLeafValues.
Context {V : Type}.

Lemma overlap_values_of_sublist L (t : AABBTree.t V) q :
  overlap_values_of L t q `sublist_of` leaf_values t.
Proof.
  induction t as [a v l r IHl IHr] using tree_ind.
  destruct l as [l|], r as [r|]; simpl in *.
  - apply sublist_app.
    + destruct (overlaps_in L (AABBTree.aabb l) q); [done|apply sublist_nil_l].
    + destruct (overlaps_in L (AABBTree.aabb r) q); [done|apply sublist_nil_l].
  - destruct (overlaps_in L a q); [done|apply sublist_nil_l].
  - destruct (overlaps_in L a q); [done|apply sublist_nil_l].
  - destruct (overlaps_in L a q); [done|apply sublist_nil_l].
Qed.
End OnlyLeafValues.

(** X24.  [overlap_values] returns values of leaves only, each leaf at most
    once, in the left-to-right order of the leaves: its result is a
    subsequence of the leaf values.  The value of an internal node is
    never returned. *)
Theorem overlap_values_only_from_leaves {V} h (t : AABBTree.t V) q lq :
  proper (view h) t → box h q lq →
  ∃ values h', AABBTree.overlap_values t q h = Ok values h' ∧
               values `sublist_of` leaf_values t.
Proof.
  intros Hpr Bq. destruct (overlap_values_spec h t q lq Hpr Bq) as (h' & E & _).
  exists (overlap_values_of (view h) t q), h'. split; [done|].
  apply overlap_values_of_sublist.
Qed.

Lemma overlap_values_only_from_leaves_witness :
  ∃ values h', AABBTree.overlap_values example_node example_d example_heap2
                 = Ok values h' ∧
               values `sublist_of` leaf_values example_node.
Proof.
  apply (overlap_values_only_from_leaves example_heap2 example_node example_d
           [(0, 1); (1, 2)]).
  - simpl. split; [by eexists|]. split; (split; [by eexists|exact I]).
  - reflexivity.
Defined.
